(** * IBKR history fetcher: a shallow embedding of [main.py]

    The script enumerates the MES futures contracts of the last two years,
    pages backward through their one-minute bars with a per-contract
    checkpoint, and merges the per-contract CSV files at the end.

    Conventions of the model.
    - Every datetime the script compares is zone-aware, and Python compares
      such values as instants.  The model keeps one axis of instants, in
      seconds of UTC counted as [datetime] counts ordinals: [now] and the
      dates of the bars are instants, and a wall-clock midnight that
      [replace(tzinfo=pytz.timezone('US/Central'))] tags with the zone's
      local mean time, 5 h 51 min behind UTC, is the instant
      [86400 * toordinal + 21060].
    - A cursor string ["%Y%m%d %H:%M:%S"] is represented by the second it
      denotes, and the empty string [''] (meaning "now") by [None].
    - Exceptions come from [ib.reqHistoricalData], which the retry loop
      handles, and from the file system: [fetch_contract_data] and
      [fetch_all] are the script where every write succeeds,
      [fetch_contract_data_io] and [fetch_all_guarded] let a write of the
      page or of the log fail and follow the exception to the handler of
      the per-contract loop, and [merger_guarded] lets [read_csv] fail. *)

From Stdlib Require Import ZArith Ascii String List Lia Permutation Sorted.
From stdpp Require Import base gmap strings list fin_maps sorting.

Local Open Scope Z_scope.

(** ** Calendar dates, after Python's [datetime] *)

Module Calendar.

Record date := mk_date { year : Z; month : Z; day : Z }.

Definition is_leap (y : Z) : bool :=
  (y mod 4 =? 0) && (negb (y mod 100 =? 0) || (y mod 400 =? 0)).

Definition days_in_month (y m : Z) : Z :=
  if m =? 2 then (if is_leap y then 29 else 28)
  else if (m =? 4) || (m =? 6) || (m =? 9) || (m =? 11) then 30
  else 31.

(** [_days_before_year]: days before January 1st of year [y]. *)
Definition days_before_year (y : Z) : Z :=
  let p := y - 1 in p * 365 + p / 4 - p / 100 + p / 400.

(** [_days_before_month]: days of year [y] before the first of month [m]. *)
Fixpoint days_before_month_aux (y : Z) (k : nat) : Z :=
  match k with
  | O => 0
  | S k' => days_before_month_aux y k' + days_in_month y (Z.of_nat k)
  end.

Definition days_before_month (y m : Z) : Z :=
  days_before_month_aux y (Z.to_nat (m - 1)).

Definition toordinal (d : date) : Z :=
  days_before_year (year d) + days_before_month (year d) (month d) + day d.

(** The [datetime(y, m, d)] constructor raises [ValueError] outside these
    ranges. *)
Definition valid_date (y m d : Z) : bool :=
  (1 <=? y) && (y <=? 9999) && (1 <=? m) && (m <=? 12)
  && (1 <=? d) && (d <=? days_in_month y m).

Definition make_date (y m d : Z) : option date :=
  if valid_date y m d then Some (mk_date y m d) else None.

Definition seconds_per_day : Z := 86400.

(** Midnight at the start of [d], in seconds on the model's time axis. *)
Definition midnight (d : date) : Z := seconds_per_day * toordinal d.

(** [timedelta(days=n)] and [timedelta(minutes=n)] in seconds. *)
Definition days (n : Z) : Z := n * seconds_per_day.
Definition minutes (n : Z) : Z := n * 60.

End Calendar.

(** ** [datetime.strptime(s, "%Y%m%d")]

    Python compiles the format to the regular expression
    [(\d\d\d\d)(1[0-2]|0[1-9]|[1-9])(3[01]|[12]\d|0[1-9]|[1-9]| [1-9])],
    takes its first match at the start of the string (alternatives tried in
    order, with backtracking), raises when the match does not reach the end of
    the string, and then builds the date, which raises for an impossible day. *)

Module Strptime.
Import Calendar.

Definition code (c : ascii) : Z := Z.of_nat (nat_of_ascii c).

Definition in_range (lo hi : Z) (c : ascii) : bool :=
  (lo <=? code c) && (code c <=? hi).

(** ['0'] is 48 and ['9'] is 57. *)
Definition is_digit (c : ascii) : bool := in_range 48 57 c.
Definition digit (c : ascii) : Z := code c - 48.

(** One alternative of two characters, then one of a single character. *)
Definition two (p q : ascii -> bool) (s : list ascii) : list (Z * list ascii) :=
  match s with
  | a :: b :: r => if p a && q b then [(10 * digit a + digit b, r)] else []
  | _ => []
  end.

Definition one (p : ascii -> bool) (s : list ascii) : list (Z * list ascii) :=
  match s with
  | a :: r => if p a then [(digit a, r)] else []
  | _ => []
  end.

Definition is_space (c : ascii) : bool := code c =? 32.

Definition space_then (p : ascii -> bool) (s : list ascii) : list (Z * list ascii) :=
  match s with
  | a :: b :: r => if is_space a && p b then [(digit b, r)] else []
  | _ => []
  end.

(** [%m]: [1[0-2]|0[1-9]|[1-9]], candidates in the order the regex engine
    tries them. *)
Definition match_m (s : list ascii) : list (Z * list ascii) :=
  two (in_range 49 49) (in_range 48 50) s
  ++ two (in_range 48 48) (in_range 49 57) s
  ++ one (in_range 49 57) s.

(** [%d]: [3[0-1]|[1-2]\d|0[1-9]|[1-9]| [1-9]]. *)
Definition match_d (s : list ascii) : list (Z * list ascii) :=
  two (in_range 51 51) (in_range 48 49) s
  ++ two (in_range 49 50) is_digit s
  ++ two (in_range 48 48) (in_range 49 57) s
  ++ one (in_range 49 57) s
  ++ space_then (in_range 49 57) s.

(** [%Y]: exactly four digits. *)
Definition match_Y (s : list ascii) : list (Z * list ascii) :=
  match s with
  | a :: b :: c :: d :: r =>
      if is_digit a && is_digit b && is_digit c && is_digit d
      then [(1000 * digit a + 100 * digit b + 10 * digit c + digit d, r)]
      else []
  | _ => []
  end.

(** All matches of the whole pattern, first one first. *)
Definition matches_Ymd (s : list ascii) : list (Z * Z * Z * list ascii) :=
  '(y, r1) ← match_Y s;
  '(m, r2) ← match_m r1;
  '(d, r3) ← match_d r2;
  [(y, m, d, r3)].

Definition strptime_Ymd (s : string) : option date :=
  match matches_Ymd (list_ascii_of_string s) with
  | (y, m, d, []) :: _ => make_date y m d
  | _ => None
  end.

End Strptime.

(** ** Contracts and the Enumerator (lines 27-44) *)

Record Contract := mk_contract {
  localSymbol : string;
  lastTradeDateOrContractMonth : string
}.

(** The nested [try]/[except] of lines 32-40 and 73-80: the full-date format
    first, then the same format on the string with ["01"] appended. *)
Definition parse_expiry (expiry_str : string) : option Calendar.date :=
  match Strptime.strptime_Ymd expiry_str with
  | Some d => Some d
  | None => Strptime.strptime_Ymd (expiry_str +:+ "01")
  end.

Definition two_years_ago (now : Z) : Z := now - Calendar.days 730.

(** [pytz.timezone('US/Central')] passed to [replace(tzinfo=...)] (lines 42,
    74 and 77) carries the first offset of the zone, local mean time, which
    pytz gives as 5 h 51 min behind UTC; [datetime.now(tz=...)] carries CST
    or CDT.  Comparing the two compares instants. *)
Definition lmt_offset : Z := 5 * 3600 + 51 * 60.

(** The instant of the midnight that starts [expiry_date], tagged so. *)
Definition expiry_instant (expiry_date : Calendar.date) : Z :=
  Calendar.midnight expiry_date + lmt_offset.

(** The body of the filter loop for one contract: [continue] on a string that
    does not parse, [append] when the expiry is recent enough. *)
Definition keeps (now : Z) (c : Contract) : bool :=
  match parse_expiry (lastTradeDateOrContractMonth c) with
  | None => false
  | Some expiry_date => two_years_ago now <=? expiry_instant expiry_date
  end.

Definition valid_contracts (now : Z) (contracts : list Contract) : list Contract :=
  filter (fun c => keeps now c = true) contracts.

(** The Enumerator as the specification words it: an expiry is either a full
    date [YYYYMMDD] or a year-month [YYYYMM], the latter standing for the first
    day of that month. *)
Module EnumeratorSpec.
Import Calendar Strptime.

Definition spec_parse_expiry (expiry_str : string) : option date :=
  match list_ascii_of_string expiry_str with
  | [y1; y2; y3; y4; m1; m2; d1; d2] =>
      if forallb is_digit [y1; y2; y3; y4; m1; m2; d1; d2]
      then make_date (1000 * digit y1 + 100 * digit y2 + 10 * digit y3 + digit y4)
                     (10 * digit m1 + digit m2) (10 * digit d1 + digit d2)
      else None
  | [y1; y2; y3; y4; m1; m2] =>
      if forallb is_digit [y1; y2; y3; y4; m1; m2]
      then make_date (1000 * digit y1 + 100 * digit y2 + 10 * digit y3 + digit y4)
                     (10 * digit m1 + digit m2) 1
      else None
  | _ => None
  end.

Definition spec_keeps (now : Z) (c : Contract) : bool :=
  match spec_parse_expiry (lastTradeDateOrContractMonth c) with
  | None => false
  | Some expiry_date => two_years_ago now <=? midnight expiry_date
  end.

End EnumeratorSpec.

(** ** Bars and data frames *)

(** A [BarData] of ib_insync.  Prices and volumes are decimal numbers that the
    script only carries around and compares for equality; they are kept as
    integers (ticks, lots). *)
Record Bar := mk_bar {
  date : Z;
  open : Z;
  high : Z;
  low : Z;
  close : Z;
  volume : Z;
  average : Z;
  barCount : Z
}.

(** A row of a pandas data frame or of a CSV file.  The [contract] column
    exists only after the Merger has added it. *)
Record Row := mk_row {
  bar : Bar;
  contract : option string
}.

Abbreviation DataFrame := (list Row).

#[global] Instance Bar_eq_dec : EqDecision Bar.
Proof. solve_decision. Defined.

#[global] Instance Row_eq_dec : EqDecision Row.
Proof. solve_decision. Defined.

(** [util.df(bars)] *)
Definition util_df (bars : list Bar) : DataFrame :=
  map (fun b => mk_row b None) bars.

Definition row_date (r : Row) : Z := date (bar r).

(** [df['date'].min()] of the non-empty frame [r :: df]. *)
Fixpoint min_date (r : Row) (df : DataFrame) : Z :=
  match df with
  | [] => row_date r
  | r' :: df' => Z.min (row_date r) (min_date r' df')
  end.

(** ** The disk and the effects of the script

    A [*.csv] file is held as the table pandas reads from it: the header
    line, which [to_csv] writes when it creates the file (line 131), is not
    part of the rows, and the files are those the script itself creates and
    appends to.  A file that [read_csv] cannot read is the matter of
    [load_contract_guarded] below. *)

Record Disk := mk_disk {
  csv : gmap string DataFrame;          (* the [*.csv] files *)
  log_json : option (gmap string Z)     (* [fetch_log.json], when it exists *)
}.

Definition log_file : string := "fetch_log.json".
Definition temp_file (c : Contract) : string := localSymbol c +:+ "_temp.csv".

(** What the script does to the outside world, in program order.  Sleeps are
    in milliseconds. *)
Inductive event :=
| Request (endDateTime : option Z) (ok : bool)   (* one [reqHistoricalData] call *)
| Sleep (ms : Z)                                 (* [time.sleep] *)
| ToCsv (file : string) (df : DataFrame)         (* [df.to_csv(file, mode='a')] *)
| JsonDump (log : gmap string Z).                (* [json.dump(log, f)] on [log_file] *)

Definition perform (w : Disk) (e : event) : Disk :=
  match e with
  | Request _ _ | Sleep _ => w
  | ToCsv file df =>
      mk_disk (<[file := default [] (csv w !! file) ++ df]> (csv w)) (log_json w)
  | JsonDump log => mk_disk (csv w) (Some log)
  end.

(** The disk after a run of events. *)
Definition replay (w : Disk) (tr : list event) : Disk := fold_left perform tr w.

(** Lines 49-55: the mapping is loaded once, empty when there is no file. *)
Definition load_log (w : Disk) : gmap string Z := default ∅ (log_json w).

(** ** The brokerage API *)

Inductive response :=
| Raises
| Returns (bars : list Bar).

(** The answer of the [n]-th call made so far, for a contract and an end time. *)
Definition Api := nat -> Contract -> option Z -> response.

(** The mutable state the fetcher threads: the number of API calls made and
    the global [log] dictionary. *)
Record Mem := mk_mem {
  calls : nat;
  log : gmap string Z
}.

(** ** The retry loop (lines 93-116) *)

Inductive fetched :=
| Bars (bars : option (list Bar))   (* the variable [bars] after the [for] *)
| Abandon.                          (* the [return] of line 116 *)

(** [for retry in range(max_retries)], from index [retry] with [remaining]
    rounds to go. *)
Fixpoint attempts (api : Api) (c : Contract) (end_dt : option Z)
    (max_retries : nat) (retry remaining : nat) (calls : nat)
    : fetched * list event * nat :=
  match remaining with
  | O => (Bars None, [], calls)
  | S remaining' =>
      match api calls c end_dt with
      | Returns bars => (Bars (Some bars), [Request end_dt true], S calls)
      | Raises =>
          if Z.of_nat retry <? Z.of_nat max_retries - 1 then
            let wait_time := 2 ^ Z.of_nat retry in
            let '(r, tr, n) :=
              attempts api c end_dt max_retries (S retry) remaining' (S calls) in
            (r, Request end_dt false :: Sleep (1000 * wait_time) :: tr, n)
          else (Abandon, [Request end_dt false], S calls)
      end
  end.

Definition request (api : Api) (c : Contract) (end_dt : option Z)
    (max_retries : nat) (calls : nat) : fetched * list event * nat :=
  attempts api c end_dt max_retries 0 max_retries calls.

(** ** The page loop (lines 91-150) *)

Inductive outcome :=
| DONE        (* a [break] *)
| FAILED      (* retries exhausted *)
| UNPARSED    (* the [return] of line 80 *)
| RUNNING.    (* the loop has not ended within the given number of rounds *)

Definition rate_limit_ms : Z := 1100.

Fixpoint fetching (fuel : nat) (api : Api) (c : Contract) (max_retries : nat)
    (start_date : Z) (end_dt : option Z) (st : Mem)
    : outcome * list event * Mem :=
  match fuel with
  | O => (RUNNING, [], st)
  | S fuel' =>
      let '(got, tr_req, n) := request api c end_dt max_retries (calls st) in
      match got with
      | Abandon => (FAILED, tr_req, mk_mem n (log st))
      | Bars None | Bars (Some []) => (DONE, tr_req, mk_mem n (log st))
      | Bars (Some bars) =>
          match filter (fun r => start_date ≤ row_date r) (util_df bars) with
          | [] => (DONE, tr_req, mk_mem n (log st))
          | r :: df' =>
              let df := r :: df' in
              let end_dt' := min_date r df' - Calendar.minutes 1 in
              let log' := <[localSymbol c := end_dt']> (log st) in
              let tr_page :=
                tr_req ++ [ToCsv (temp_file c) df; Sleep rate_limit_ms; JsonDump log'] in
              if min_date r df' <=? start_date
              then (DONE, tr_page, mk_mem n log')
              else
                let '(o, tr, st') :=
                  fetching fuel' api c max_retries start_date (Some end_dt') (mk_mem n log') in
                (o, tr_page ++ tr, st')
          end
      end
  end.

(** ** INIT (lines 65-88) *)

Definition end_of_day (expiry_date : Calendar.date) : Z :=
  Calendar.midnight expiry_date + (23 * 3600 + 59 * 60 + 59).

(** The starting cursor; [None] when the expiry does not parse and the
    function returns at once. *)
Definition init_end_dt (log : gmap string Z) (now : Z) (c : Contract)
    : option (option Z) :=
  let end_dt := log !! localSymbol c in
  match parse_expiry (lastTradeDateOrContractMonth c) with
  | None => None
  | Some expiry_date =>
      Some (if bool_decide (end_dt = None) && (expiry_instant expiry_date <? now)
            then Some (end_of_day expiry_date)
            else end_dt)
  end.

Definition fetch_contract_data (fuel : nat) (api : Api) (now : Z) (c : Contract)
    (max_retries : nat) (st : Mem) : outcome * list event * Mem :=
  match init_end_dt (log st) now c with
  | None => (UNPARSED, [], st)
  | Some end_dt =>
      fetching fuel api c max_retries (two_years_ago now) end_dt st
  end.

(** ** The per-contract loop (lines 152-166)

    [clock i] is [datetime.now()] as read while contract number [i] is
    processed.  Whatever the outcome, the loop goes on with the next
    contract.  This is the loop of a session in which nothing but the API
    call raises, so that the [except] of line 164 is never entered; the loop
    with that handler, for runs that a failing write leaves by an exception,
    is [fetch_all_guarded] below, and it is this one when no write fails. *)
Fixpoint fetch_all (fuel : nat) (api : Api) (clock : nat -> Z) (i : nat)
    (contracts : list Contract) (st : Mem)
    : list (string * outcome) * list event * Mem :=
  match contracts with
  | [] => ([], [], st)
  | c :: rest =>
      let '(o, tr, st') := fetch_contract_data fuel api (clock i) c 3 st in
      let '(os, tr', st'') := fetch_all fuel api clock (S i) rest st' in
      ((localSymbol c, o) :: os, tr ++ tr', st'')
  end.

(** ** The Merger (lines 168-204) *)

(** [df['contract'] = contract.localSymbol] *)
Definition set_contract (sym : string) (df : DataFrame) : DataFrame :=
  map (fun r => mk_row (bar r) (Some sym)) df.

(** One round of the collecting loop (lines 171-180) for a file that
    [read_csv] reads: the file must exist and hold rows. *)
Definition load_contract (w : Disk) (c : Contract) : option DataFrame :=
  match csv w !! temp_file c with
  | None | Some [] => None
  | Some df => Some (set_contract (localSymbol c) df)
  end.

Definition all_data (w : Disk) (contracts : list Contract) : list DataFrame :=
  omap (load_contract w) contracts.

(** [drop_duplicates()]: rows equal in every column, the first one kept. *)
Fixpoint drop_duplicates_from (seen : list Row) (df : DataFrame) : DataFrame :=
  match df with
  | [] => []
  | r :: df' =>
      if decide (r ∈ seen) then drop_duplicates_from seen df'
      else r :: drop_duplicates_from (r :: seen) df'
  end.

Definition drop_duplicates (df : DataFrame) : DataFrame :=
  drop_duplicates_from [] df.

Definition date_le (r1 r2 : Row) : Prop := row_date r1 ≤ row_date r2.

#[global] Instance date_le_dec : RelDecision date_le.
Proof. intros r1 r2. unfold date_le. apply _. Defined.

#[global] Instance date_le_total : Total date_le.
Proof. intros r1 r2. unfold date_le. lia. Qed.

#[global] Instance date_le_trans : Transitive date_le.
Proof. intros r1 r2 r3. unfold date_le. lia. Qed.

(** [sort_values('date')]: ascending in the [date] column.  pandas leaves the
    order of rows with equal dates to the sorting kind; the model sorts by
    merging. *)
Definition sort_values (df : DataFrame) : DataFrame := merge_sort date_le df.

(** [pd.concat(all_data).drop_duplicates().sort_values('date')
      .reset_index(drop=True)] *)
Definition combine (frames : list DataFrame) : DataFrame :=
  sort_values (drop_duplicates (concat frames)).

(** The name of the output file; [stamp] is
    [datetime.now().strftime('%Y%m%d_%H%M%S')]. *)
Definition out_file (stamp : string) : string := "MES_1min_" +:+ stamp +:+ ".csv".

(** [result.to_csv(filename, index=False)] *)
Definition write_csv (file : string) (df : DataFrame) (w : Disk) : Disk :=
  mk_disk (<[file := df]> (csv w)) (log_json w).

(** The Merger: the disk it leaves and the combined table, if any. *)
Definition merger (w : Disk) (contracts : list Contract) (stamp : string)
    : Disk * option DataFrame :=
  match all_data w contracts with
  | [] => (w, None)
  | frames =>
      let result := combine frames in
      (write_csv (out_file stamp) result w, Some result)
  end.

(** The collecting loop with the [try]/[except] of lines 173-182:
    [reads_ok f] tells whether [read_csv] reads the file [f]; when it raises,
    the handler prints and the loop goes on, the contract adding nothing. *)
Definition load_contract_guarded (reads_ok : string -> bool) (w : Disk)
    (c : Contract) : option DataFrame :=
  match csv w !! temp_file c with
  | None => None
  | Some df =>
      if reads_ok (temp_file c) then
        match df with
        | [] => None
        | _ => Some (set_contract (localSymbol c) df)
        end
      else None
  end.

Definition all_data_guarded (reads_ok : string -> bool) (w : Disk)
    (contracts : list Contract) : list DataFrame :=
  omap (load_contract_guarded reads_ok w) contracts.

Definition merger_guarded (reads_ok : string -> bool) (w : Disk)
    (contracts : list Contract) (stamp : string) : Disk * option DataFrame :=
  match all_data_guarded reads_ok w contracts with
  | [] => (w, None)
  | frames =>
      let result := combine frames in
      (write_csv (out_file stamp) result w, Some result)
  end.

(** The characters [strftime('%Y%m%d_%H%M%S')] can produce. *)
Definition stamp_char (c : ascii) : bool :=
  Strptime.is_digit c || (Strptime.code c =? 95).

Definition is_stamp (stamp : string) : bool :=
  forallb stamp_char (list_ascii_of_string stamp).

(** ** The events of a request and of a page *)

Definition is_request (e : event) : bool :=
  match e with Request _ _ => true | _ => false end.

(** The five events of a request that is abandoned. *)
Definition exhausted (end_dt : option Z) : list event :=
  [Request end_dt false; Sleep 1000; Request end_dt false; Sleep 2000;
   Request end_dt false].

(** The cursor after a page whose surviving rows are [r :: df'], and the
    three events that page adds after its request. *)
Definition new_end_dt (r : Row) (df' : DataFrame) : Z :=
  min_date r df' - Calendar.minutes 1.

Definition page_events (c : Contract) (r : Row) (df' : DataFrame)
    (log0 : gmap string Z) : list event :=
  [ToCsv (temp_file c) (r :: df'); Sleep rate_limit_ms;
   JsonDump (<[localSymbol c := new_end_dt r df']> log0)].

Definition survivors (start_date : Z) (bars : list Bar) : DataFrame :=
  filter (fun r => start_date ≤ row_date r) (util_df bars).

(** ** The shape of a trace of the page loop *)

(** The events of the retry loop: requests and back-off sleeps. *)
Definition backoff_event (e : event) : bool :=
  match e with
  | Request _ _ => true
  | Sleep ms => (ms =? 1000) || (ms =? 2000)
  | _ => false
  end.

Definition is_to_csv (e : event) : bool :=
  match e with ToCsv _ _ => true | _ => false end.

Definition is_json_dump (e : event) : bool :=
  match e with JsonDump _ => true | _ => false end.

(** A trace is a sequence of retry-loop events and of pages, a page being a
    write of rows, the rate-limit sleep and a dump of the log whose entry for
    the contract is the new cursor. *)
Inductive shaped (c : Contract) : list event -> Prop :=
| shaped_nil : shaped c []
| shaped_backoff e tr :
    backoff_event e = true -> shaped c tr -> shaped c (e :: tr)
| shaped_page r df' log' tr :
    log' !! localSymbol c = Some (new_end_dt r df') ->
    shaped c tr ->
    shaped c (ToCsv (temp_file c) (r :: df') :: Sleep rate_limit_ms
              :: JsonDump log' :: tr).

#[local] Hint Constructors shaped : core.

(** ** The checkpoint invariant *)

(** The API's side of the contract: the bars of a window that ends at
    [end_dt] are not later than [end_dt]. *)
Definition api_in_window (api : Api) : Prop :=
  forall n c t bars b,
    api n c (Some t) = Returns bars -> b ∈ bars -> date b ≤ t.

Definition file_rows (w : Disk) (c : Contract) : DataFrame :=
  default [] (csv w !! temp_file c).

(** The invariant of the data model: the cursor on disk is not later than
    any row written for the contract. *)
Definition checkpoint_inv (c : Contract) (w : Disk) : Prop :=
  forall cursor,
    load_log w !! localSymbol c = Some cursor ->
    forall r, r ∈ file_rows w c -> cursor ≤ row_date r.

(** What the loop relies on at its head: the rows on disk are not earlier
    than the cursor in use; without a cursor there are none. *)
Definition rows_after (c : Contract) (w : Disk) (end_dt : option Z) : Prop :=
  match end_dt with
  | Some t => forall r, r ∈ file_rows w c -> t ≤ row_date r
  | None => file_rows w c = []
  end.

(** The points of a run between two rounds: its start, and the moments just
    after a dump of the log. *)
Definition at_boundary (p : list event) : Prop :=
  p = [] \/ exists p' log', p = p' ++ [JsonDump log'].

(** The points of a run that are not inside a page, that is, not between the
    write of its rows and the dump of its checkpoint: a boundary, followed by
    requests and back-off sleeps only. *)
Definition between_pages (p : list event) : Prop :=
  exists p0 q,
    p = p0 ++ q /\ at_boundary p0 /\ Forall (fun e => backoff_event e = true) q.

(** ** The requests of a trace *)

(** The requests of a trace, in order: end time and success. *)
Definition requests (tr : list event) : list (option Z * bool) :=
  omap (fun e => match e with Request t ok => Some (t, ok) | _ => None end) tr.

(** Requests paging backward from [t]: a failed attempt is repeated with the
    same end time, and the request after a successful one ends strictly
    earlier. *)
Inductive chain : Z -> list (option Z * bool) -> Prop :=
| chain_nil t : chain t []
| chain_retry t l : chain t l -> chain t ((Some t, false) :: l)
| chain_page t t' l : t' < t -> chain t' l -> chain t ((Some t, true) :: l).

(** ** Sleeps, pages, rounds and pace of a trace *)

(** The sleeps of a trace, in order. *)
Definition sleeps (tr : list event) : list Z :=
  omap (fun e => match e with Sleep ms => Some ms | _ => None end) tr.

(** The back-off sleeps after attempts number [retry], [retry + 1], ...:
    [k] of them, in milliseconds. *)
Definition backoff_sleeps (retry k : nat) : list Z :=
  (fun i => 1000 * 2 ^ Z.of_nat i) <$> seq retry k.

(** The data frames a trace writes, in order. *)
Definition pages (tr : list event) : list DataFrame :=
  omap (fun e => match e with ToCsv _ df => Some df | _ => None end) tr.

(** One round of the page loop: the loop stops, or goes on from a new
    cursor. *)
Inductive round_result :=
| Stop (o : outcome) (tr : list event) (st : Mem)
| Continue (tr : list event) (end_dt : Z) (st : Mem).

Definition round (api : Api) (c : Contract) (max_retries : nat)
    (start_date : Z) (end_dt : option Z) (st : Mem) : round_result :=
  let '(got, tr_req, n) := request api c end_dt max_retries (calls st) in
  match got with
  | Abandon => Stop FAILED tr_req (mk_mem n (log st))
  | Bars bars =>
      match survivors start_date (default [] bars) with
      | [] => Stop DONE tr_req (mk_mem n (log st))
      | r :: df' =>
          let st' := mk_mem n (<[localSymbol c := new_end_dt r df']> (log st)) in
          let tr := tr_req ++ page_events c r df' (log st) in
          if min_date r df' <=? start_date then Stop DONE tr st'
          else Continue tr (new_end_dt r df') st'
      end
  end.

(** The least sleep the script puts after a request before the next one:
    the rate-limit delay after an answer, the first back-off after a
    failure. *)
Definition min_gap_ms (ok : bool) : Z := if ok then rate_limit_ms else 1000.

(** Walk a trace, keeping the success of the last request and the sleep
    since; [None] when a request comes sooner than [min_gap_ms] after the
    one before it. *)
Fixpoint pace (last : option (bool * Z)) (tr : list event)
    : option (option (bool * Z)) :=
  match tr with
  | [] => Some last
  | Request _ ok :: tr' =>
      match last with
      | Some (ok0, slept) =>
          if min_gap_ms ok0 <=? slept then pace (Some (ok, 0)) tr' else None
      | None => pace (Some (ok, 0)) tr'
      end
  | Sleep ms :: tr' =>
      pace (match last with Some (ok0, s) => Some (ok0, s + ms) | None => None end) tr'
  | _ :: tr' => pace last tr'
  end.

Definition ready (last : option (bool * Z)) : Prop :=
  match last with
  | Some (ok, slept) => min_gap_ms ok ≤ slept
  | None => True
  end.

(** ** Writing dates and times: [strftime] *)

(** The character of a decimal digit, and numbers padded with zeros to two
    and to four digits, as [strftime] writes [%m], [%d], [%H], [%M], [%S]
    and (for years from 1000 on) [%Y]. *)
Definition digit_char (d : Z) : ascii := ascii_of_nat (Z.to_nat (48 + d)).

Definition pad2 (n : Z) : list ascii :=
  [digit_char (n / 10); digit_char (n mod 10)].

Definition pad4 (n : Z) : list ascii :=
  [digit_char (n / 1000); digit_char (n / 100 mod 10);
   digit_char (n / 10 mod 10); digit_char (n mod 10)].

(** [d.strftime("%Y%m%d")], the date part of the cursor of line 85. *)
Definition strftime_Ymd (d : Calendar.date) : string :=
  string_of_list_ascii
    (pad4 (Calendar.year d) ++ pad2 (Calendar.month d) ++ pad2 (Calendar.day d)).

(** A contract month [YYYYMM]. *)
Definition contract_month (y m : Z) : string :=
  string_of_list_ascii (pad4 y ++ pad2 m).

(** A wall-clock time and [strftime('%Y%m%d_%H%M%S')] of line 203. *)
Record datetime := mk_datetime {
  on : Calendar.date;
  hour : Z;
  minute : Z;
  second : Z
}.

Definition valid_datetime (dt : datetime) : bool :=
  Calendar.valid_date (Calendar.year (on dt)) (Calendar.month (on dt))
                      (Calendar.day (on dt))
  && (0 <=? hour dt) && (hour dt <=? 23)
  && (0 <=? minute dt) && (minute dt <=? 59)
  && (0 <=? second dt) && (second dt <=? 59).

Definition strftime_stamp (dt : datetime) : string :=
  string_of_list_ascii
    (pad4 (Calendar.year (on dt)) ++ pad2 (Calendar.month (on dt))
     ++ pad2 (Calendar.day (on dt)) ++ ["_"%char]
     ++ pad2 (hour dt) ++ pad2 (minute dt) ++ pad2 (second dt)).

(** The first way the month and day patterns match a text. *)
Definition first_md (s : list ascii) : option (Z * Z * list ascii) :=
  head ('(m, r2) ← Strptime.match_m s; '(d, r3) ← Strptime.match_d r2; [(m, d, r3)]).

(** ** Failing writes and the [try]/[except] of lines 162-166

    Outside the retry loop an exception is not caught inside
    [fetch_contract_data]: it ends the run of the contract and reaches the
    [except Exception] of the per-contract loop, which prints and goes on
    with the next contract.  Of the statements that can raise there, the
    model takes the two that touch the disk: the [to_csv] of line 132, which
    then writes nothing, and the [open] of line 143, which comes after the
    dictionary in memory was updated (line 142) and then leaves the log file
    as it was.  [writes_ok n] tells whether the [n]-th such write succeeds.
    [fetching], [fetch_contract_data] and [fetch_all] above are the
    script where every write succeeds. *)

Definition Writes := nat -> bool.

Inductive run_end :=
| Returned (o : outcome)   (* [fetch_contract_data] returned *)
| Raised.                  (* an exception left it *)

Inductive round_io_result :=
| StopIo (e : run_end) (tr : list event) (st : Mem) (k : nat)
| ContinueIo (tr : list event) (end_dt : Z) (st : Mem) (k : nat).

(** One round of the page loop; [k] counts the writes attempted so far.  A
    round makes two writes, [to_csv] (line 132) and the [open] of the log for
    [json.dump] (lines 143-144); a write that fails raises before it changes
    the file, and nothing of lines 118-149 catches it.  When the second one
    fails the page is on disk and [log] in memory holds the new cursor (line
    142), but the log file keeps its old content. *)
Definition round_io (api : Api) (writes_ok : Writes) (c : Contract)
    (max_retries : nat) (start_date : Z) (end_dt : option Z) (st : Mem) (k : nat)
    : round_io_result :=
  let '(got, tr_req, n) := request api c end_dt max_retries (calls st) in
  match got with
  | Abandon => StopIo (Returned FAILED) tr_req (mk_mem n (log st)) k
  | Bars bars =>
      match survivors start_date (default [] bars) with
      | [] => StopIo (Returned DONE) tr_req (mk_mem n (log st)) k
      | r :: df' =>
          if writes_ok k then
            let log' := <[localSymbol c := new_end_dt r df']> (log st) in
            if writes_ok (S k) then
              let tr := tr_req ++ page_events c r df' (log st) in
              if min_date r df' <=? start_date
              then StopIo (Returned DONE) tr (mk_mem n log') (S (S k))
              else ContinueIo tr (new_end_dt r df') (mk_mem n log') (S (S k))
            else
              StopIo Raised
                (tr_req ++ [ToCsv (temp_file c) (r :: df'); Sleep rate_limit_ms])
                (mk_mem n log') (S (S k))
          else StopIo Raised tr_req (mk_mem n (log st)) (S k)
      end
  end.

Fixpoint fetching_io (fuel : nat) (api : Api) (writes_ok : Writes) (c : Contract)
    (max_retries : nat) (start_date : Z) (end_dt : option Z) (st : Mem) (k : nat)
    : run_end * list event * Mem * nat :=
  match fuel with
  | O => (Returned RUNNING, [], st, k)
  | S fuel' =>
      match round_io api writes_ok c max_retries start_date end_dt st k with
      | StopIo e tr st' k' => (e, tr, st', k')
      | ContinueIo tr end_dt' st1 k1 =>
          let '(e, tr', st', k') :=
            fetching_io fuel' api writes_ok c max_retries start_date
                        (Some end_dt') st1 k1 in
          (e, tr ++ tr', st', k')
      end
  end.

Definition fetch_contract_data_io (fuel : nat) (api : Api) (writes_ok : Writes)
    (now : Z) (c : Contract) (max_retries : nat) (st : Mem) (k : nat)
    : run_end * list event * Mem * nat :=
  match init_end_dt (log st) now c with
  | None => (Returned UNPARSED, [], st, k)
  | Some end_dt =>
      fetching_io fuel api writes_ok c max_retries (two_years_ago now) end_dt st k
  end.

(** Lines 152-166 with the [try]/[except]: however the run of a contract
    ends, by a [return] or by an exception, the loop goes on. *)
Fixpoint fetch_all_guarded (fuel : nat) (api : Api) (writes_ok : Writes)
    (clock : nat -> Z) (i : nat) (contracts : list Contract) (st : Mem) (k : nat)
    : list (string * run_end) * list event * Mem * nat :=
  match contracts with
  | [] => ([], [], st, k)
  | c :: rest =>
      let '(e, tr, st', k') :=
        fetch_contract_data_io fuel api writes_ok (clock i) c 3 st k in
      let '(es, tr', st'', k'') :=
        fetch_all_guarded fuel api writes_ok clock (S i) rest st' k' in
      ((localSymbol c, e) :: es, tr ++ tr', st'', k'')
  end.

(** ** A run on a small feed *)

Module Scenario.

Definition MESM6 : Contract := mk_contract "MESM6" "20260619".

(** 1 June 2026, 00:00:00. *)
Definition now : Z := Calendar.midnight (Calendar.mk_date 2026 6 1).

Definition bar_at (t : Z) : Bar := mk_bar t 21000 21004 20996 21001 150 21000 42.

(** What the exchange has to offer at the [n]-th call. *)
Definition feed (n : nat) : list Bar :=
  match n with
  | 0%nat => [bar_at (now - 120); bar_at (now - 60)]
  | 1%nat => [bar_at (now - 240)]
  | _ => []
  end.

Definition in_window (end_dt : option Z) (b : Bar) : bool :=
  match end_dt with
  | Some t => date b <=? t
  | None => true
  end.

(** An API that never fails and answers within the window asked for. *)
Definition api : Api :=
  fun n _ end_dt => Returns (filter (fun b => in_window end_dt b = true) (feed n)).

Definition empty_disk : Disk := mk_disk ∅ None.

Definition run : outcome * list event * Mem :=
  fetch_contract_data 3 api now MESM6 3 (mk_mem 0 (load_log empty_disk)).

Definition page1 : DataFrame := util_df [bar_at (now - 120); bar_at (now - 60)].
Definition page2 : DataFrame := util_df [bar_at (now - 240)].
Definition log1 : gmap string Z := {[ "MESM6" := now - 180 ]}.
Definition log2 : gmap string Z := {[ "MESM6" := now - 300 ]}.

Definition trace : list event :=
  [Request None true;
   ToCsv "MESM6_temp.csv" page1; Sleep 1100; JsonDump log1;
   Request (Some (now - 180)) true;
   ToCsv "MESM6_temp.csv" page2; Sleep 1100; JsonDump log2;
   Request (Some (now - 300)) true].

(** A second run, resumed from the checkpoint the first one left. *)
Definition resumed_disk : Disk :=
  mk_disk {[ "MESM6_temp.csv" := page1 ]} (Some (<[ "MESH6" := 5 ]> log1)).

Definition resumed_api : Api := fun n => api (S n).

Definition resumed_log : gmap string Z := <[ "MESH6" := 5 ]> log1.

Definition resumed_trace : list event :=
  [Request (Some (now - 180)) true;
   ToCsv "MESM6_temp.csv" page2; Sleep 1100;
   JsonDump (<[ "MESM6" := now - 300 ]> resumed_log);
   Request (Some (now - 300)) true].

(** Two contract files for the Merger, of three and of four rows; the
    timestamp [now - 180] occurs in both. *)
Definition MESU6 : Contract := mk_contract "MESU6" "20260918".

Definition file_M6 : DataFrame :=
  util_df [bar_at (now - 60); bar_at (now - 120); bar_at (now - 180)].

Definition file_U6 : DataFrame :=
  util_df [bar_at (now - 180); bar_at (now - 240); bar_at (now - 300);
           bar_at (now - 360)].

Definition merge_disk : Disk :=
  mk_disk {[ "MESM6_temp.csv" := file_M6; "MESU6_temp.csv" := file_U6 ]} None.

Definition tagged (sym : string) (t : Z) : Row := mk_row (bar_at t) (Some sym).

Definition combined : DataFrame :=
  [tagged "MESU6" (now - 360); tagged "MESU6" (now - 300);
   tagged "MESU6" (now - 240); tagged "MESM6" (now - 180);
   tagged "MESU6" (now - 180); tagged "MESM6" (now - 120);
   tagged "MESM6" (now - 60)].

(** An API that answers every request with one bar stamped an hour after
    [now], whatever end time was asked for. *)
Definition late_api : Api := fun _ _ _ => Returns [bar_at (now + 3600)].

(** An API whose first call fails and which then answers as [api]. *)
Definition flaky_api : Api :=
  fun n c end_dt => match n with O => Raises | S n' => api n' c end_dt end.

End Scenario.

(** * Properties *)

(** ** Dates and [strptime] *)

Example strptime_full : Strptime.strptime_Ymd "20240621" = Some (Calendar.mk_date 2024 6 21).
Proof. reflexivity. Qed.
Example strptime_june : parse_expiry "202406" = Some (Calendar.mk_date 2024 6 1).
Proof. reflexivity. Qed.
Example strptime_nov : parse_expiry "202411" = Some (Calendar.mk_date 2024 1 1).
Proof. reflexivity. Qed.
Example toordinal_2024 : Calendar.toordinal (Calendar.mk_date 2024 6 1) = 739038.
Proof. reflexivity. Qed.

(** ** The Enumerator *)

Lemma valid_contracts_spec now contracts c :
  c ∈ valid_contracts now contracts <->
  c ∈ contracts /\
  exists expiry_date,
    parse_expiry (lastTradeDateOrContractMonth c) = Some expiry_date /\
    two_years_ago now ≤ expiry_instant expiry_date.
Proof.
  unfold valid_contracts. rewrite list_elem_of_filter. unfold keeps.
  split.
  - intros [Hk Hin]. split; [done|].
    destruct (parse_expiry _) as [d|]; [|done].
    exists d. split; [done|]. by apply Z.leb_le.
  - intros [Hin (d & -> & Hle)]. split; [|done]. by apply Z.leb_le.
Qed.

(** C7.  The December contract month ["202412"] is a year-month string, which
    the Enumerator is meant to read as the first of December 2024 and to keep
    on 1 June 2026 (two years back is 1 June 2024).  [strptime] however
    matches the whole string against the full-date format as year 2024,
    month 1, day 2, so the second format is never tried and the contract is
    dropped. *)
Theorem enumerator_drops_december_contract_month :
  let c := mk_contract "MESZ4" "202412" in
  let now := Calendar.midnight (Calendar.mk_date 2026 6 1) in
  parse_expiry (lastTradeDateOrContractMonth c) = Some (Calendar.mk_date 2024 1 2) /\
  EnumeratorSpec.spec_parse_expiry (lastTradeDateOrContractMonth c)
    = Some (Calendar.mk_date 2024 12 1) /\
  two_years_ago now = Calendar.midnight (Calendar.mk_date 2024 6 1) /\
  EnumeratorSpec.spec_keeps now c = true /\
  valid_contracts now [c] = [].
Proof. vm_compute. repeat split; reflexivity. Qed.

(** ** INIT *)



(** ** The retry loop *)

(** With the default [max_retries=3], a request is decided by the answers to
    at most three consecutive calls. *)
Lemma request_three api c end_dt n :
  request api c end_dt 3 n =
  match api n c end_dt with
  | Returns b => (Bars (Some b), [Request end_dt true], S n)
  | Raises =>
    match api (S n) c end_dt with
    | Returns b =>
        (Bars (Some b), [Request end_dt false; Sleep 1000; Request end_dt true],
         S (S n))
    | Raises =>
      match api (S (S n)) c end_dt with
      | Returns b =>
          (Bars (Some b),
           [Request end_dt false; Sleep 1000; Request end_dt false; Sleep 2000;
            Request end_dt true], S (S (S n)))
      | Raises => (Abandon, exhausted end_dt, S (S (S n)))
      end
    end
  end.
Proof.
  unfold request, exhausted. simpl.
  destruct (api n c end_dt); [|done].
  destruct (api (S n) c end_dt); [|done].
  destruct (api (S (S n)) c end_dt); done.
Qed.

Lemma request_abandon api c end_dt n tr n' :
  request api c end_dt 3 n = (Abandon, tr, n') -> tr = exhausted end_dt.
Proof.
  rewrite request_three.
  destruct (api n c end_dt); [|done].
  destruct (api (S n) c end_dt); [|done].
  destruct (api (S (S n)) c end_dt); [|done].
  by intros [= <- _].
Qed.

(** One round of the page loop, case by case. *)
Lemma fetching_inv fuel api c m start_date end_dt st o tr st' :
  fetching (S fuel) api c m start_date end_dt st = (o, tr, st') ->
  exists got tr_req n,
    request api c end_dt m (calls st) = (got, tr_req, n) /\
    ((got = Abandon /\ o = FAILED /\ tr = tr_req /\ st' = mk_mem n (log st))
     \/ (exists bars, got = Bars bars /\
           survivors start_date (default [] bars) = [] /\
           o = DONE /\ tr = tr_req /\ st' = mk_mem n (log st))
     \/ (exists bars r df', got = Bars (Some bars) /\
           survivors start_date bars = r :: df' /\
           let log' := <[localSymbol c := new_end_dt r df']> (log st) in
           ((min_date r df' ≤ start_date /\ o = DONE /\
             tr = tr_req ++ page_events c r df' (log st) /\ st' = mk_mem n log')
            \/ (start_date < min_date r df' /\
                exists tr_rest,
                  fetching fuel api c m start_date (Some (new_end_dt r df'))
                           (mk_mem n log') = (o, tr_rest, st') /\
                  tr = (tr_req ++ page_events c r df' (log st)) ++ tr_rest)))).
Proof.
  cbn [fetching]. unfold survivors, page_events, new_end_dt.
  destruct (request api c end_dt m (calls st)) as [[got tr_req] n].
  intros H. exists got, tr_req, n. split; [done|].
  destruct got as [[[|b bars]|]|].
  - right; left. exists (Some []). by inversion H.
  - destruct (filter _ (util_df (b :: bars))) as [|r df'] eqn:Hdf.
    + right; left. exists (Some (b :: bars)). by inversion H.
    + right; right. exists (b :: bars), r, df'. split; [done|]. split; [done|].
      destruct (min_date r df' <=? start_date) eqn:Hmin.
      * left. apply Z.leb_le in Hmin. by inversion H.
      * right. apply Z.leb_gt in Hmin. split; [done|].
        destruct (fetching fuel _ _ _ _ _ _) as [[o1 tr1] st1].
        exists tr1. by inversion H.
  - right; left. exists None. by inversion H.
  - left. by inversion H.
Qed.

Lemma fetching_failed fuel api c start_date end_dt st tr st' :
  fetching fuel api c 3 start_date end_dt st = (FAILED, tr, st') ->
  exists tr0 end_dt', tr = tr0 ++ exhausted end_dt'.
Proof.
  revert end_dt st tr st'.
  induction fuel as [|fuel IH]; intros end_dt st tr st' H; [done|].
  apply fetching_inv in H as (got & tr_req & n & Hreq & H).
  destruct H as [(-> & _ & -> & _)|[(bars & _ & _ & [=] & _)|(bars & r & df' & _ & _ & H)]].
  - apply request_abandon in Hreq as ->. by exists [], end_dt.
  - destruct H as [(_ & [=] & _)|(_ & tr_rest & Hrec & ->)].
    apply IH in Hrec as (tr0 & e & ->).
    exists ((tr_req ++ page_events c r df' (log st)) ++ tr0), e.
    by rewrite app_assoc.
Qed.

Lemma fetch_all_symbols fuel api clock i contracts st :
  (fetch_all fuel api clock i contracts st).1.1.*1 = localSymbol <$> contracts.
Proof.
  revert i st. induction contracts as [|c rest IH]; intros i st; [done|].
  cbn [fetch_all].
  destruct (fetch_contract_data _ _ _ _ _ _) as [[o tr] st'].
  specialize (IH (S i) st').
  destruct (fetch_all _ _ _ _ _ _) as [[os tr'] st''].
  simpl in *. by f_equal.
Qed.

(** One iteration of the page loop, unfolded. *)
Lemma fetching_round fuel api c m start_date end_dt st :
  fetching (S fuel) api c m start_date end_dt st =
  match round api c m start_date end_dt st with
  | Stop o tr st' => (o, tr, st')
  | Continue tr end_dt' st1 =>
      let '(o, tr', st') := fetching fuel api c m start_date (Some end_dt') st1 in
      (o, tr ++ tr', st')
  end.
Proof.
  cbn [fetching]. unfold round, survivors, page_events, new_end_dt.
  destruct (request api c end_dt m (calls st)) as [[got tr_req] n].
  destruct got as [[[|b bars]|]|]; try done.
  simpl default.
  destruct (filter _ (util_df (b :: bars))) as [|r df']; [done|].
  by destruct (min_date r df' <=? start_date).
Qed.

Lemma request_first api c end_dt n got tr n' :
  request api c end_dt 3 n = (got, tr, n') ->
  exists ok tr0, tr = Request end_dt ok :: tr0.
Proof.
  rewrite request_three.
  destruct (api _ _ _); [|intros [= _ <- _]; eauto].
  destruct (api _ _ _); [|intros [= _ <- _]; eauto].
  destruct (api _ _ _); intros [= _ <- _]; unfold exhausted; eauto.
Qed.

(** One round with failing writes, case by case. *)
Lemma round_io_inv api writes_ok c start_date end_dt st k res :
  round_io api writes_ok c 3 start_date end_dt st k = res ->
  exists got tr_req n,
    request api c end_dt 3 (calls st) = (got, tr_req, n) /\
    ((got = Abandon /\ tr_req = exhausted end_dt /\
      res = StopIo (Returned FAILED) tr_req (mk_mem n (log st)) k)
     \/ (got ≠ Abandon /\
         ((exists st', res = StopIo (Returned DONE) tr_req st' k)
          \/ (exists tr' st' k' j,
                res = StopIo Raised (tr_req ++ tr') st' k' /\
                (k <= j < k')%nat /\ writes_ok j = false)
          \/ (exists tr' st' , res = StopIo (Returned DONE) (tr_req ++ tr') st' (S (S k)))
          \/ (exists tr' t' st', res = ContinueIo (tr_req ++ tr') t' st' (S (S k)))))).
Proof.
  unfold round_io.
  destruct (request api c end_dt 3 (calls st)) as [[got tr_req] n] eqn:Hreq.
  intros <-. exists got, tr_req, n. split; [done|].
  destruct got as [bars|].
  2:{ left. by rewrite (request_abandon _ _ _ _ _ _ Hreq). }
  right. split; [done|].
  destruct (survivors start_date (default [] bars)) as [|r df']; [left; eauto|].
  destruct (writes_ok k) eqn:Hk.
  - destruct (writes_ok (S k)) eqn:Hk1.
    + destruct (min_date r df' <=? start_date); right; right; [left|right]; eauto.
    + right; left. eexists _, _, _, (S k). split; [done|]. split; [lia|done].
  - right; left. exists [], (mk_mem n (log st)), (S k), k.
    rewrite app_nil_r. split; [done|]. split; [lia|done].
Qed.

Lemma fetching_io_ends fuel api writes_ok c start_date :
  forall end_dt st k e tr st' k',
  fetching_io fuel api writes_ok c 3 start_date end_dt st k = (e, tr, st', k') ->
  (k <= k')%nat
  /\ (e = Returned FAILED -> exists tr0 end_dt', tr = tr0 ++ exhausted end_dt')
  /\ (e = Raised -> exists j, (k <= j < k')%nat /\ writes_ok j = false).
Proof.
  induction fuel as [|fuel IH]; intros end_dt st k e tr st' k' H.
  { inversion H; subst. by repeat split. }
  cbn [fetching_io] in H.
  destruct (round_io api writes_ok c 3 start_date end_dt st k) as [e1 tr1 st1 k1|tr1 t1 st1 k1] eqn:Hr.
  - inversion H; subst. clear H.
    apply round_io_inv in Hr as (got & tr_req & n & Hreq & Hr).
    destruct Hr as [(_ & -> & [= -> -> _ ->])|(_ & [(s1 & [= -> _ _ ->])|[(tr' & s1 & k1 & j & [= -> _ _ ->] & Hj & Hw)|[(tr' & s1 & [= -> _ _ ->])|(tr' & t' & s1 & [=])]]])].
    + split; [lia|]. split; [by exists [], end_dt|done].
    + by repeat split.
    + split; [lia|]. split; [done|]. intros _. by exists j.
    + split; [lia|]. by split.
  - destruct (fetching_io fuel api writes_ok c 3 start_date (Some t1) st1 k1)
      as [[[e2 tr2] st2] k2] eqn:Hrec.
    inversion H; subst. clear H.
    apply IH in Hrec as (Hle & Hf & Hx).
    apply round_io_inv in Hr as (got & tr_req & n & Hreq & Hr).
    assert (k1 = S (S k)) as ->.
    { destruct Hr as [(_ & _ & [=])|(_ & [(s1 & [=])|[(tr' & s1 & k3 & j & [=] & _)|[(tr' & s1 & [=])|(tr' & t' & s1 & [= _ _ _ ->])]]])]. done. }
    split; [lia|]. split.
    + intros He. destruct (Hf He) as (tr0 & e' & ->).
      exists (tr1 ++ tr0), e'. by rewrite app_assoc.
    + intros He. destruct (Hx He) as (j & Hj & Hw). exists j. split; [lia|done].
Qed.

Lemma fetching_io_first_request fuel api writes_ok c start_date end_dt st k e tr st' k' :
  fetching_io (S fuel) api writes_ok c 3 start_date end_dt st k = (e, tr, st', k') ->
  exists ok tr0, tr = Request end_dt ok :: tr0.
Proof.
  cbn [fetching_io].
  destruct (round_io api writes_ok c 3 start_date end_dt st k) as [e1 tr1 st1 k1|tr1 t1 st1 k1] eqn:Hr;
    apply round_io_inv in Hr as (got & tr_req & n & Hreq & Hr);
    apply request_first in Hreq as (ok & tr0 & ->).
  - intros [= _ <- _ _].
    destruct Hr as [(_ & _ & [= _ -> _ _])|(_ & [(s1 & [= _ -> _ _])|[(tr' & s1 & k3 & j & [= _ -> _ _] & _)|[(tr' & s1 & [= _ -> _ _])|(tr' & t' & s1 & [=])]]])];
      simpl; eauto.
  - destruct (fetching_io fuel _ _ _ _ _ _ _ _) as [[[e2 tr2] st2] k2].
    intros [= _ <- _ _].
    destruct Hr as [(_ & _ & [=])|(_ & [(s1 & [=])|[(tr' & s1 & k3 & j & [=] & _)|[(tr' & s1 & [=])|(tr' & t' & s1 & [= -> _ _])]]])].
    simpl. eauto.
Qed.

Lemma fetching_io_no_fault fuel api writes_ok c start_date :
  (forall j, writes_ok j = true) ->
  forall end_dt st k,
  exists k',
    fetching_io fuel api writes_ok c 3 start_date end_dt st k
    = (Returned (fetching fuel api c 3 start_date end_dt st).1.1,
       (fetching fuel api c 3 start_date end_dt st).1.2,
       (fetching fuel api c 3 start_date end_dt st).2, k').
Proof.
  intros Hw. induction fuel as [|fuel IH]; intros end_dt st k; [by exists k|].
  rewrite fetching_round. cbn [fetching_io]. unfold round_io, round.
  destruct (request api c end_dt 3 (calls st)) as [[got tr_req] n].
  destruct got as [bars|]; [|by eexists].
  destruct (survivors start_date (default [] bars)) as [|r df']; [by eexists|].
  rewrite !Hw. destruct (min_date r df' <=? start_date); [by eexists|].
  destruct (IH (Some (new_end_dt r df'))
              (mk_mem n (<[localSymbol c:=new_end_dt r df']> (log st))) (S (S k)))
    as [k' ->].
  destruct (fetching fuel api c 3 start_date _ _) as [[o tr] st']. by eexists.
Qed.

Lemma fetch_all_guarded_symbols fuel api writes_ok clock contracts :
  forall i st k,
  (fetch_all_guarded fuel api writes_ok clock i contracts st k).1.1.1.*1
  = localSymbol <$> contracts.
Proof.
  induction contracts as [|c rest IH]; intros i st k; [done|].
  cbn [fetch_all_guarded].
  destruct (fetch_contract_data_io _ _ _ _ _ _ _ _) as [[[e tr] st'] k'].
  specialize (IH (S i) st' k').
  destruct (fetch_all_guarded _ _ _ _ _ _ _ _) as [[[es tr'] st''] k''].
  simpl in *. by f_equal.
Qed.

Lemma fetching_io_not_unparsed fuel api writes_ok c start_date :
  forall end_dt st k,
  (fetching_io fuel api writes_ok c 3 start_date end_dt st k).1.1.1
  ≠ Returned UNPARSED.
Proof.
  induction fuel as [|fuel IH]; intros end_dt st k; [done|].
  cbn [fetching_io].
  destruct (round_io api writes_ok c 3 start_date end_dt st k) as [e1 tr1 st1 k1|tr1 t1 st1 k1] eqn:Hr.
  - apply round_io_inv in Hr as (got & tr_req & n & Hreq & Hr). simpl.
    destruct Hr as [(_ & _ & [= -> _ _ _])|(_ & [(s1 & [= -> _ _ _])|[(tr' & s1 & k3 & j & [= -> _ _ _] & _)|[(tr' & s1 & [= -> _ _ _])|(tr' & t' & s1 & [=])]]])]; done.
  - specialize (IH (Some t1) st1 k1).
    by destruct (fetching_io fuel _ _ _ _ _ _ _ _) as [[[e2 tr2] st2] k2].
Qed.

Lemma fetch_all_guarded_no_fault fuel api writes_ok clock contracts :
  (forall j, writes_ok j = true) ->
  forall i st k,
  exists k',
    fetch_all_guarded fuel api writes_ok clock i contracts st k
    = (prod_map id Returned <$> (fetch_all fuel api clock i contracts st).1.1,
       (fetch_all fuel api clock i contracts st).1.2,
       (fetch_all fuel api clock i contracts st).2, k').
Proof.
  intros Hw. induction contracts as [|c rest IH]; intros i st k; [by exists k|].
  cbn [fetch_all_guarded fetch_all].
  unfold fetch_contract_data_io, fetch_contract_data.
  destruct (init_end_dt (log st) (clock i) c) as [end_dt|].
  - destruct (fetching_io_no_fault fuel api writes_ok c (two_years_ago (clock i))
                Hw end_dt st k) as [k1 ->].
    destruct (fetching fuel api c 3 _ end_dt st) as [[o tr] st1]. simpl.
    destruct (IH (S i) st1 k1) as [k2 ->].
    destruct (fetch_all fuel api clock (S i) rest st1) as [[os tr'] st2].
    by exists k2.
  - destruct (IH (S i) st k) as [k2 ->].
    destruct (fetch_all fuel api clock (S i) rest st) as [[os tr'] st2].
    by exists k2.
Qed.

(** C5 (as amended).  With the default three attempts: a page request makes
    at most three calls; the first failure is followed by a sleep of 1 s and
    the second by one of 2 s (so two failures and a success give exactly
    those two sleeps); three failures abandon the contract, whose run returns
    FAILED, and a run returns FAILED only so.  A run is also left by an
    exception when a write of the page or of the checkpoint fails, and it
    makes no request at all when the expiry cannot be read.  However the run
    of a contract ends, the per-contract loop goes on: after a FAILED
    contract the log in memory is unchanged and the next request is the first
    one of the next contract; every contract gets its turn.  When no write
    fails no run is left by an exception, and the loop is [fetch_all]. *)
Theorem retry_backoff_and_failure :
  (forall api c end_dt n,
     let '(got, tr, n') := request api c end_dt 3 n in
     (n' <= n + 3)%nat /\ length (filter (fun e => is_request e = true) tr) = (n' - n)%nat /\
     match api n c end_dt, api (S n) c end_dt, api (S (S n)) c end_dt with
     | Returns b, _, _ => got = Bars (Some b) /\ tr = [Request end_dt true]
     | Raises, Returns b, _ =>
         got = Bars (Some b) /\
         tr = [Request end_dt false; Sleep (1000 * 2 ^ 0); Request end_dt true]
     | Raises, Raises, Returns b =>
         got = Bars (Some b) /\
         tr = [Request end_dt false; Sleep (1000 * 2 ^ 0);
               Request end_dt false; Sleep (1000 * 2 ^ 1); Request end_dt true]
     | Raises, Raises, Raises =>
         got = Abandon /\
         tr = [Request end_dt false; Sleep (1000 * 2 ^ 0);
               Request end_dt false; Sleep (1000 * 2 ^ 1); Request end_dt false]
     end)
  /\ (forall fuel api writes_ok c start_date end_dt st k,
        api (calls st) c end_dt = Raises ->
        api (S (calls st)) c end_dt = Raises ->
        api (S (S (calls st))) c end_dt = Raises ->
        fetching_io (S fuel) api writes_ok c 3 start_date end_dt st k
          = (Returned FAILED, exhausted end_dt,
             mk_mem (S (S (S (calls st)))) (log st), k))
  /\ (forall fuel api writes_ok now c st k e tr st' k',
        fetch_contract_data_io fuel api writes_ok now c 3 st k = (e, tr, st', k') ->
        (e = Returned FAILED -> exists tr0 end_dt', tr = tr0 ++ exhausted end_dt')
        /\ (e = Raised -> exists j, (k <= j < k')%nat /\ writes_ok j = false)
        /\ (e = Returned UNPARSED ->
            parse_expiry (lastTradeDateOrContractMonth c) = None /\ tr = []))
  /\ (forall fuel api writes_ok clock i c1 c2 rest st k end_dt1 end_dt2,
        init_end_dt (log st) (clock i) c1 = Some end_dt1 ->
        init_end_dt (log st) (clock (S i)) c2 = Some end_dt2 ->
        api (calls st) c1 end_dt1 = Raises ->
        api (S (calls st)) c1 end_dt1 = Raises ->
        api (S (S (calls st))) c1 end_dt1 = Raises ->
        exists es ok tr st' k',
          fetch_all_guarded (S fuel) api writes_ok clock i (c1 :: c2 :: rest) st k
          = ((localSymbol c1, Returned FAILED) :: es,
             exhausted end_dt1 ++ Request end_dt2 ok :: tr, st', k'))
  /\ (forall fuel api writes_ok clock i contracts st k,
        (fetch_all_guarded fuel api writes_ok clock i contracts st k).1.1.1.*1
        = localSymbol <$> contracts)
  /\ (forall fuel api writes_ok clock i contracts st k,
        (forall j, writes_ok j = true) ->
        exists k',
          fetch_all_guarded fuel api writes_ok clock i contracts st k
          = (prod_map id Returned <$> (fetch_all fuel api clock i contracts st).1.1,
             (fetch_all fuel api clock i contracts st).1.2,
             (fetch_all fuel api clock i contracts st).2, k')).
Proof.
  split; [|split; [|split; [|split; [|split]]]].
  - intros api c end_dt n. rewrite request_three.
    destruct (api n c end_dt); [|simpl; repeat split; lia].
    destruct (api (S n) c end_dt); [|simpl; repeat split; lia].
    destruct (api (S (S n)) c end_dt); simpl; repeat split; lia.
  - intros fuel api writes_ok c start_date end_dt st k H1 H2 H3.
    cbn [fetching_io]. unfold round_io.
    rewrite request_three, H1, H2, H3. reflexivity.
  - intros fuel api writes_ok now c st k e tr st' k'.
    unfold fetch_contract_data_io, init_end_dt.
    destruct (parse_expiry (lastTradeDateOrContractMonth c)) as [d|] eqn:Hp.
    + intros H.
      match type of H with fetching_io _ _ _ _ _ _ ?e0 _ _ = _ =>
        pose proof (fetching_io_not_unparsed fuel api writes_ok c
                      (two_years_ago now) e0 st k) as Hn
      end.
      rewrite H in Hn. simpl in Hn.
      apply fetching_io_ends in H as (_ & Hf & Hx).
      split; [done|]. split; [done|]. by intros ->.
    + intros [= <- <- _ _]. by repeat split.
  - intros fuel api writes_ok clock i c1 c2 rest st k e1 e2 Hi1 Hi2 H1 H2 H3.
    cbn [fetch_all_guarded]. unfold fetch_contract_data_io at 1. rewrite Hi1.
    cbn [fetching_io]. unfold round_io at 1.
    rewrite request_three, H1, H2, H3.
    unfold fetch_contract_data_io. cbn [log]. rewrite Hi2.
    destruct (fetching_io (S fuel) api writes_ok c2 3 _ e2 _ k)
      as [[[e tr] st1] k1] eqn:Hrun.
    apply fetching_io_first_request in Hrun as (ok & tr0 & ->).
    destruct (fetch_all_guarded _ _ _ _ _ rest _ _) as [[[es tr'] st2] k2].
    by exists ((localSymbol c2, e) :: es), ok, (tr0 ++ tr'), st2, k2.
  - intros. apply fetch_all_guarded_symbols.
  - intros fuel api writes_ok clock i contracts st k Hw.
    by apply fetch_all_guarded_no_fault.
Qed.
Lemma retry_backoff_and_failure_witness :
  exists es ok tr st' k',
    fetch_all_guarded 1 (fun _ _ _ => Raises) (fun _ => true)
      (fun _ => Scenario.now) 0 [Scenario.MESM6; Scenario.MESU6] (mk_mem 0 ∅) 0
    = ((localSymbol Scenario.MESM6, Returned FAILED) :: es,
       exhausted None ++ Request None ok :: tr, st', k').
Proof.
  destruct retry_backoff_and_failure as (_ & _ & _ & H & _).
  apply (H 0%nat (fun _ _ _ => Raises) (fun _ => true) (fun _ => Scenario.now)
           0%nat Scenario.MESM6 Scenario.MESU6 [] (mk_mem 0 ∅) 0%nat None None);
    vm_compute; reflexivity.
Defined.

(** C5 as the specification words it does not hold: exhausting the three
    attempts is not the only way the run of a contract fails.  Here every
    request succeeds and every write fails: both runs are left by an
    exception, no request was retried, and the loop went on from the first
    contract to the second. *)
Lemma write_failure_ends_run_without_failed_request :
  fetch_all_guarded 3 Scenario.api (fun _ => false) (fun _ => Scenario.now) 0
    [Scenario.MESM6; Scenario.MESU6] (mk_mem 0 ∅) 0
  = ([("MESM6", Raised); ("MESU6", Raised)],
     [Request None true; Request None true], mk_mem 2 ∅, 2%nat).
Proof. vm_compute. reflexivity. Qed.


(** ** The shape of a trace of the page loop *)

Lemma request_backoff api c end_dt n got tr n' :
  request api c end_dt 3 n = (got, tr, n') ->
  Forall (fun e => backoff_event e = true) tr.
Proof.
  rewrite request_three.
  destruct (api n c end_dt); [|intros [= _ <- _]; by repeat constructor].
  destruct (api (S n) c end_dt); [|intros [= _ <- _]; by repeat constructor].
  destruct (api (S (S n)) c end_dt); intros [= _ <- _]; by repeat constructor.
Qed.

Lemma shaped_app c tr1 tr2 :
  Forall (fun e => backoff_event e = true) tr1 -> shaped c tr2 ->
  shaped c (tr1 ++ tr2).
Proof. induction 1; simpl; auto. Qed.

Lemma page_events_shaped c r df' log0 tr :
  shaped c tr -> shaped c (page_events c r df' log0 ++ tr).
Proof.
  intros H. unfold page_events. simpl. constructor; [|done].
  apply lookup_insert_eq.
Qed.

Lemma fetching_shaped fuel api c start_date end_dt st o tr st' :
  fetching fuel api c 3 start_date end_dt st = (o, tr, st') -> shaped c tr.
Proof.
  revert end_dt st o tr st'.
  induction fuel as [|fuel IH]; intros end_dt st o tr st' H.
  { inversion H. constructor. }
  apply fetching_inv in H as (got & tr_req & n & Hreq & H).
  apply request_backoff in Hreq.
  destruct H as [(_ & _ & -> & _)|[(bars & _ & _ & _ & -> & _)|(bars & r & df' & _ & _ & H)]].
  - rewrite <- (app_nil_r tr_req). by apply shaped_app.
  - rewrite <- (app_nil_r tr_req). by apply shaped_app.
  - destruct H as [(_ & _ & -> & _)|(_ & tr_rest & Hrec & ->)].
    + apply shaped_app; [done|].
      rewrite <- (app_nil_r (page_events _ _ _ _)). by apply page_events_shaped.
    + rewrite <- app_assoc. apply shaped_app; [done|].
      apply page_events_shaped. eauto.
Qed.

(** Every write of rows is followed at once by the sleep and the dump. *)
Lemma shaped_to_csv c tr :
  shaped c tr -> forall p file df q,
  tr = p ++ ToCsv file df :: q ->
  exists r df' log' q',
    file = temp_file c /\ df = r :: df' /\
    q = Sleep rate_limit_ms :: JsonDump log' :: q' /\
    log' !! localSymbol c = Some (new_end_dt r df').
Proof.
  induction 1 as [|e tr He Hs IH|r df' log' tr Hl Hs IH]; intros p file df q Heq.
  - by destruct p.
  - destruct p as [|e' p]; simplify_eq/=; eauto.
  - destruct p as [|e1 [|e2 [|e3 p]]]; simplify_eq/=; eauto 10.
Qed.

(** Every rate-limit sleep sits between the write of a page and its dump. *)
Lemma shaped_sleep c tr :
  shaped c tr -> forall p q,
  tr = p ++ Sleep rate_limit_ms :: q ->
  exists p' r df' log' q',
    p = p' ++ [ToCsv (temp_file c) (r :: df')] /\
    q = JsonDump log' :: q' /\
    log' !! localSymbol c = Some (new_end_dt r df').
Proof.
  induction 1 as [|e tr He Hs IH|r df' log' tr Hl Hs IH]; intros p q Heq.
  - by destruct p.
  - destruct p as [|e' p]; simplify_eq/=.
    destruct (IH _ _ eq_refl) as (p' & r & df' & log' & q' & -> & -> & Hl).
    by exists (e' :: p'), r, df', log', q'.
  - destruct p as [|e1 [|e2 [|e3 p]]]; simplify_eq/=.
    + by exists [], r, df', log', tr.
    + destruct (IH _ _ eq_refl) as (p' & r1 & df1 & log1 & q' & -> & -> & Hl1).
      by exists (ToCsv (temp_file c) (r :: df') :: Sleep rate_limit_ms
                 :: JsonDump log' :: p'), r1, df1, log1, q'.
Qed.

Lemma shaped_counts c tr :
  shaped c tr ->
  length (filter (fun e => is_json_dump e = true) tr)
  = length (filter (fun e => is_to_csv e = true) tr).
Proof.
  induction 1 as [|e tr He Hs IH|r df' log' tr Hl Hs IH]; [done| |].
  - destruct e; try done; by rewrite !filter_cons_False.
  - rewrite (filter_cons_False _ (ToCsv _ _)) by done.
    rewrite (filter_cons_False _ (Sleep _)) by done.
    rewrite (filter_cons_True _ (JsonDump _)) by done.
    rewrite (filter_cons_True _ (ToCsv _ _)) by done.
    rewrite (filter_cons_False _ (Sleep _)) by done.
    rewrite (filter_cons_False _ (JsonDump _)) by done.
    simpl. by rewrite IH.
Qed.

(** ** Replaying a trace on the disk *)

Lemma replay_app w tr1 tr2 : replay w (tr1 ++ tr2) = replay (replay w tr1) tr2.
Proof. apply fold_left_app. Qed.

Lemma replay_backoff w tr :
  Forall (fun e => backoff_event e = true) tr -> replay w tr = w.
Proof.
  intros H. revert w. induction H as [|e tr He _ IH]; intros w; [done|].
  simpl. rewrite IH. by destruct e.
Qed.

Lemma min_date_le r df' x : x ∈ r :: df' -> min_date r df' ≤ row_date x.
Proof.
  revert r. induction df' as [|r' df' IH]; intros r Hx; simpl.
  - apply list_elem_of_singleton in Hx as ->. lia.
  - apply elem_of_cons in Hx as [->|Hx]; [lia|].
    specialize (IH r' Hx). lia.
Qed.

Lemma min_date_elem r df' : exists x, x ∈ r :: df' /\ row_date x = min_date r df'.
Proof.
  revert r. induction df' as [|r' df' IH]; intros r; simpl.
  - exists r. split; [left|done].
  - destruct (IH r') as (x & Hx & Hd).
    destruct (Z.min_spec (row_date r) (min_date r' df')) as [[_ ->]|[_ ->]].
    + exists r. split; [left|done].
    + exists x. split; [by right|done].
Qed.

(** ** The checkpoint after a page *)

(** C3.  When a page request succeeds and rows [r :: df'] survive the
    two-year filter, the round writes them, and then stores and dumps the log
    with the contract's cursor set to the minimum date of those rows minus 60
    seconds: the file on disk holds exactly that mapping as soon as the round
    is over.  In any run every written page is followed by its own dump, so
    there are as many dumps as pages. *)
Theorem checkpoint_after_every_page :
  (forall fuel api c start_date end_dt st bars tr_req n r df',
     request api c end_dt 3 (calls st) = (Bars (Some bars), tr_req, n) ->
     survivors start_date bars = r :: df' ->
     let log' := <[localSymbol c := min_date r df' - 60]> (log st) in
     let round :=
       tr_req ++ [ToCsv (temp_file c) (r :: df'); Sleep rate_limit_ms; JsonDump log'] in
     (exists o tr_rest st',
        fetching (S fuel) api c 3 start_date end_dt st = (o, round ++ tr_rest, st')) /\
     (forall w, log_json (replay w round) = Some log') /\
     log' !! localSymbol c = Some (min_date r df' - 60) /\
     (forall x, x ∈ r :: df' -> min_date r df' ≤ row_date x))
  /\ (forall fuel api c start_date end_dt st o tr st',
        fetching fuel api c 3 start_date end_dt st = (o, tr, st') ->
        (forall p file df q, tr = p ++ ToCsv file df :: q ->
           exists r df' log' q',
             file = temp_file c /\ df = r :: df' /\
             q = Sleep rate_limit_ms :: JsonDump log' :: q' /\
             log' !! localSymbol c = Some (min_date r df' - 60)) /\
        length (filter (fun e => is_json_dump e = true) tr)
        = length (filter (fun e => is_to_csv e = true) tr)).
Proof.
  split.
  - intros fuel api c start_date end_dt st bars tr_req n r df' Hreq Hdf log' round.
    repeat split.
    + cbn [fetching]. rewrite Hreq. unfold survivors in Hdf.
      destruct bars as [|b bars]; [done|]. rewrite Hdf.
      destruct (min_date r df' <=? start_date).
      * exists DONE, [], (mk_mem n log'). by rewrite app_nil_r.
      * destruct (fetching fuel _ _ _ _ _ _) as [[o tr] st'].
        by exists o, tr, st'.
    + intros w. unfold round. rewrite replay_app. reflexivity.
    + apply lookup_insert_eq.
    + apply min_date_le.
  - intros fuel api c start_date end_dt st o tr st' H.
    apply fetching_shaped in H. split.
    + intros p file df q Heq. by apply (shaped_to_csv c tr H p).
    + by apply (shaped_counts c).
Qed.

(** ** The order of the steps of a round *)

(** C8 (as amended).  In every run of the page loop a rate-limit sleep comes
    directly after the rows of the page were appended to the contract's file
    and directly before the log is dumped; while the sleep takes place the
    log on disk is still the one from before the page. *)
Theorem append_then_sleep_then_checkpoint
    fuel api c start_date end_dt st o tr st' p q :
  fetching fuel api c 3 start_date end_dt st = (o, tr, st') ->
  tr = p ++ Sleep rate_limit_ms :: q ->
  exists p' r df' log' q',
    p = p' ++ [ToCsv (temp_file c) (r :: df')] /\
    q = JsonDump log' :: q' /\
    log' !! localSymbol c = Some (min_date r df' - 60) /\
    (forall w, log_json (replay w (p ++ [Sleep rate_limit_ms]))
               = log_json (replay w p')).
Proof.
  intros H Heq. apply fetching_shaped in H.
  destruct (shaped_sleep c tr H p q Heq) as (p' & r & df' & log' & q' & -> & -> & Hl).
  exists p', r, df', log', q'. repeat split; [done|].
  intros w. by rewrite !replay_app.
Qed.

(** ** Prefixes of a trace: the points of an execution *)

Lemma prefix_app_cases {A} (p l1 l2 : list A) :
  p `prefix_of` l1 ++ l2 ->
  p `prefix_of` l1 \/ exists k, p = l1 ++ k /\ k `prefix_of` l2.
Proof.
  intros [k Hk]. apply app_eq_inv in Hk as [(k0 & -> & ->)|(k0 & -> & ->)].
  - left. by exists k0.
  - right. exists k0. split; [done|]. by exists k.
Qed.

Lemma prefix_cons_cases {A} (p : list A) x l :
  p `prefix_of` x :: l -> p = [] \/ exists k, p = x :: k /\ k `prefix_of` l.
Proof.
  destruct p as [|y p]; [by left|]. intros H. right.
  pose proof (prefix_cons_inv_1 _ _ _ _ H) as ->.
  apply prefix_cons_inv_2 in H. by exists p.
Qed.

(** The prefixes of a round followed by the rest of the run. *)
Lemma prefix_round (p tr_req : list event) e1 e2 e3 rest :
  p `prefix_of` (tr_req ++ [e1; e2; e3]) ++ rest ->
  p `prefix_of` tr_req \/ p = tr_req ++ [e1] \/ p = tr_req ++ [e1; e2]
  \/ exists k, p = (tr_req ++ [e1; e2; e3]) ++ k /\ k `prefix_of` rest.
Proof.
  rewrite <- app_assoc. intros H.
  apply prefix_app_cases in H as [H|(k & -> & H)]; [by left|].
  simpl in H.
  apply prefix_cons_cases in H as [->|(k1 & -> & H)].
  { left. by rewrite app_nil_r. }
  apply prefix_cons_cases in H as [->|(k2 & -> & H)]; [by right; left|].
  apply prefix_cons_cases in H as [->|(k3 & -> & H)]; [by right; right; left|].
  right; right; right. exists k3. split; [|done]. by rewrite <- app_assoc.
Qed.

Lemma prefix_Forall {A} (P : A -> Prop) (p l : list A) :
  p `prefix_of` l -> Forall P l -> Forall P p.
Proof. intros [k ->] H. by apply Forall_app in H as [H _]. Qed.

Lemma backoff_no_dump tr p log0 :
  Forall (fun e => backoff_event e = true) tr ->
  ~ (p ++ [JsonDump log0]) `prefix_of` tr.
Proof.
  intros Hb Hp. apply (prefix_Forall _ _ _ Hp) in Hb.
  apply Forall_app in Hb as [_ Hb]. by inversion Hb.
Qed.

(** ** Other contracts' checkpoints *)



(** ** The checkpoint and the rows on disk *)

Lemma request_returns api c end_dt n bars tr n' :
  request api c end_dt 3 n = (Bars (Some bars), tr, n') ->
  exists k, api k c end_dt = Returns bars.
Proof.
  rewrite request_three.
  destruct (api n c end_dt) eqn:H0; [|intros [= <- _ _]; eauto].
  destruct (api (S n) c end_dt) eqn:H1; [|intros [= <- _ _]; eauto].
  destruct (api (S (S n)) c end_dt) eqn:H2; [done|intros [= <- _ _]; eauto].
Qed.

Lemma survivors_in_window api k c t start_date bars r :
  api_in_window api -> api k c (Some t) = Returns bars ->
  r ∈ survivors start_date bars -> row_date r ≤ t.
Proof.
  intros Hapi Hk Hr. unfold survivors in Hr.
  apply list_elem_of_filter in Hr as [_ Hr]. unfold util_df in Hr.
  apply list_elem_of_fmap in Hr as (b & -> & Hb). by eapply Hapi.
Qed.

(** The disk after a round that wrote a page. *)
Lemma replay_round w c tr_req r df' log0 :
  Forall (fun e => backoff_event e = true) tr_req ->
  let w' := replay w (tr_req ++ page_events c r df' log0) in
  file_rows w' c = file_rows w c ++ r :: df'
  /\ log_json w' = Some (<[localSymbol c := new_end_dt r df']> log0).
Proof.
  intros Hb. simpl. rewrite replay_app, (replay_backoff w tr_req) by done.
  unfold file_rows. simpl. by rewrite lookup_insert_eq.
Qed.

Lemma round_rows_after api c start_date end_dt w n bars tr_req n' r df' log0 :
  api_in_window api ->
  request api c end_dt 3 n = (Bars (Some bars), tr_req, n') ->
  survivors start_date bars = r :: df' ->
  rows_after c w end_dt ->
  rows_after c (replay w (tr_req ++ page_events c r df' log0))
             (Some (new_end_dt r df')).
Proof.
  intros Hapi Hreq Hdf Hrows.
  pose proof (request_backoff _ _ _ _ _ _ _ Hreq) as Hb.
  destruct (replay_round w c tr_req r df' log0 Hb) as [Hfile _].
  unfold rows_after. rewrite Hfile. intros x Hx.
  assert (Hnew : forall y, y ∈ r :: df' -> new_end_dt r df' ≤ row_date y).
  { intros y Hy. apply min_date_le in Hy. unfold new_end_dt, Calendar.minutes. lia. }
  apply elem_of_app in Hx as [Hx|Hx]; [|by apply Hnew].
  destruct end_dt as [t|]; simpl in Hrows; [|by rewrite Hrows in Hx; inversion Hx].
  apply request_returns in Hreq as [k Hk].
  assert (row_date r ≤ t).
  { eapply survivors_in_window; [done..|]. rewrite Hdf. by left. }
  specialize (Hrows x Hx). specialize (Hnew r ltac:(by left)).
  pose proof (min_date_le r df' r ltac:(by left)).
  unfold new_end_dt, Calendar.minutes in *. lia.
Qed.

Lemma snoc_app_inv {A} (p a k : list A) x :
  p ++ [x] = a ++ k -> k = [] \/ exists k', k = k' ++ [x].
Proof.
  intros H. destruct (decide (k = [])) as [|Hk]; [by left|right].
  destruct (proj2 (last_is_Some k) Hk) as [y Hy].
  apply last_Some in Hy as [k' ->]. exists k'.
  rewrite app_assoc in H. by apply app_inj_tail in H as [_ ->].
Qed.

Lemma fetching_boundary fuel api c start_date :
  api_in_window api ->
  forall end_dt st w o tr st',
  rows_after c w end_dt ->
  fetching fuel api c 3 start_date end_dt st = (o, tr, st') ->
  forall p log', (p ++ [JsonDump log']) `prefix_of` tr ->
  checkpoint_inv c (replay w (p ++ [JsonDump log'])).
Proof.
  intros Hapi.
  induction fuel as [|fuel IH]; intros end_dt st w o tr st' Hrows H p log' Hp.
  { inversion H; subst. apply prefix_nil_inv in Hp. by destruct p. }
  apply fetching_inv in H as (got & tr_req & n & Hreq & H).
  pose proof (request_backoff _ _ _ _ _ _ _ Hreq) as Hb.
  destruct H as [(_ & _ & -> & _)|[(bars & _ & _ & _ & -> & _)|(bars & r & df' & -> & Hdf & H)]].
  - by apply backoff_no_dump in Hp.
  - by apply backoff_no_dump in Hp.
  - pose proof (round_rows_after _ _ _ _ w _ _ _ _ _ _ (log st) Hapi Hreq Hdf Hrows)
      as Hrows'.
    destruct (replay_round w c tr_req r df' (log st) Hb) as [_ Hlog].
    assert (Hhere : checkpoint_inv c (replay w (tr_req ++ page_events c r df' (log st)))).
    { intros cursor Hc. unfold load_log in Hc. rewrite Hlog in Hc. simpl in Hc.
      rewrite lookup_insert_eq in Hc. injection Hc as <-. exact Hrows'. }
    assert (Hpage : forall rest,
        (p ++ [JsonDump log']) `prefix_of` (tr_req ++ page_events c r df' (log st)) ++ rest ->
        (forall k, (k ++ [JsonDump log']) `prefix_of` rest ->
           checkpoint_inv c
             (replay (replay w (tr_req ++ page_events c r df' (log st)))
                     (k ++ [JsonDump log']))) ->
        checkpoint_inv c (replay w (p ++ [JsonDump log']))).
    { intros rest Hpr Hrest. unfold page_events in Hpr.
      apply prefix_round in Hpr as [Hpr|[Heq|[Heq|(k & Heq & Hk)]]].
      - by apply backoff_no_dump in Hpr.
      - by apply app_inj_tail in Heq as [_ ?].
      - change [?a; ?b] with ([a] ++ [b]) in Heq. rewrite app_assoc in Heq.
        by apply app_inj_tail in Heq as [_ ?].
      - destruct (snoc_app_inv _ _ _ _ Heq) as [->|[k' ->]].
        + rewrite app_nil_r in Heq. rewrite Heq. exact Hhere.
        + rewrite Heq, replay_app. by apply Hrest. }
    destruct H as [(_ & _ & -> & _)|(_ & tr_rest & Hrec & ->)].
    + apply (Hpage []); [by rewrite app_nil_r|].
      intros k Hk. apply prefix_nil_inv in Hk. by destruct k.
    + apply (Hpage tr_rest); [done|]. intros k Hk.
      by eapply IH; [exact Hrows'|exact Hrec|exact Hk].
Qed.

Lemma checkpoint_inv_at_boundary fuel api now c n w o tr st' p :
  api_in_window api ->
  checkpoint_inv c w ->
  (load_log w !! localSymbol c = None -> file_rows w c = []) ->
  fetch_contract_data fuel api now c 3 (mk_mem n (load_log w)) = (o, tr, st') ->
  p `prefix_of` tr ->
  at_boundary p ->
  checkpoint_inv c (replay w p).
Proof.
  intros Hapi Hinv Hfresh H Hp [->|(p' & log' & ->)]; [done|].
  unfold fetch_contract_data, init_end_dt in H. simpl in H.
  destruct (parse_expiry _) as [expiry_date|].
  2:{ inversion H; subst. apply prefix_nil_inv in Hp. by destruct p'. }
  eapply fetching_boundary; [exact Hapi| |exact H|exact Hp].
  destruct (load_log w !! localSymbol c) as [cursor|] eqn:Hc.
  - rewrite bool_decide_eq_false_2 by done. simpl. by apply Hinv.
  - rewrite bool_decide_eq_true_2 by done. simpl.
    specialize (Hfresh eq_refl).
    destruct (_ <? _); simpl; [|done].
    intros r Hr. rewrite Hfresh in Hr. inversion Hr.
Qed.

(** C2 (as amended).  Let the API answer within the requested window, and let
    the run start from a disk on which the invariant holds and on which a
    contract without checkpoint has no rows yet.  Then at every point of the
    run that is not inside a page (the start, the moment after each dump of
    the log, and the requests and back-off sleeps that follow) the cursor on
    disk is not later than any row in the contract's file. *)
Theorem checkpoint_below_rows_between_rounds
    fuel api now c n w o tr st' p :
  api_in_window api ->
  checkpoint_inv c w ->
  (load_log w !! localSymbol c = None -> file_rows w c = []) ->
  fetch_contract_data fuel api now c 3 (mk_mem n (load_log w)) = (o, tr, st') ->
  p `prefix_of` tr ->
  between_pages p ->
  checkpoint_inv c (replay w p).
Proof.
  intros Hapi Hinv Hfresh H Hp (p0 & q & -> & Hb & Hq).
  rewrite replay_app, replay_backoff by done.
  eapply checkpoint_inv_at_boundary; [done..|by eapply prefix_app_l|done].
Qed.

(** ** The end times of the requests *)

Lemma requests_app tr1 tr2 : requests (tr1 ++ tr2) = requests tr1 ++ requests tr2.
Proof. apply omap_app. Qed.

Lemma request_chain api c t n got tr n' t' l :
  request api c (Some t) 3 n = (got, tr, n') ->
  t' < t -> chain t' l ->
  chain t (requests tr ++ match got with Abandon => [] | Bars _ => l end).
Proof.
  rewrite request_three. intros H Hlt Hl.
  destruct (api n c (Some t)).
  2:{ inversion H; subst. simpl. by eapply chain_page. }
  destruct (api (S n) c (Some t)).
  2:{ inversion H; subst. simpl. apply chain_retry. by eapply chain_page. }
  destruct (api (S (S n)) c (Some t)); inversion H; subst; simpl.
  - do 3 apply chain_retry. constructor.
  - do 2 apply chain_retry. by eapply chain_page.
Qed.

Lemma fetching_chain fuel api c start_date :
  api_in_window api ->
  forall t st o tr st',
  fetching fuel api c 3 start_date (Some t) st = (o, tr, st') ->
  chain t (requests tr).
Proof.
  intros Hapi. induction fuel as [|fuel IH]; intros t st o tr st' H.
  { inversion H. constructor. }
  apply fetching_inv in H as (got & tr_req & n & Hreq & H).
  destruct H as [(-> & _ & -> & _)|[(bars & -> & _ & _ & -> & _)|(bars & r & df' & -> & Hdf & H)]].
  - rewrite <- (app_nil_r (requests tr_req)).
    apply (request_chain _ _ _ _ _ _ _ (t - 1) [] Hreq); [lia|constructor].
  - rewrite <- (app_nil_r (requests tr_req)).
    apply (request_chain _ _ _ _ _ _ _ (t - 1) [] Hreq); [lia|constructor].
  - assert (Hlt : new_end_dt r df' < t).
    { pose proof Hreq as Hret. apply request_returns in Hret as [k Hk].
      assert (row_date r ≤ t).
      { eapply survivors_in_window; [done..|]. rewrite Hdf. by left. }
      pose proof (min_date_le r df' r ltac:(by left)).
      unfold new_end_dt, Calendar.minutes. lia. }
    destruct H as [(_ & _ & -> & _)|(_ & tr_rest & Hrec & ->)].
    + rewrite requests_app. simpl.
      apply (request_chain _ _ _ _ _ _ _ _ [] Hreq Hlt). constructor.
    + rewrite !requests_app. simpl. rewrite app_nil_r.
      apply (request_chain _ _ _ _ _ _ _ _ _ Hreq Hlt). eauto.
Qed.

Lemma chain_head t l e ok : chain t l -> head l = Some (e, ok) -> e = Some t.
Proof. destruct 1; simpl; congruence. Qed.

Lemma chain_bound t l e ok :
  chain t l -> (e, ok) ∈ l -> exists t', e = Some t' /\ t' ≤ t.
Proof.
  induction 1 as [t|t l Hl IH|t t' l Hlt Hl IH]; intros Hin.
  - inversion Hin.
  - apply elem_of_cons in Hin as [[= -> ->]|Hin]; [exists t; split; [done|lia]|auto].
  - apply elem_of_cons in Hin as [[= -> ->]|Hin]; [exists t; split; [done|lia]|].
    destruct (IH Hin) as (t1 & -> & Hle). exists t1. split; [done|lia].
Qed.

Lemma chain_adjacent t l :
  chain t l -> forall i t1 (ok1 : bool) e2 (ok2 : bool),
  l !! i = Some (Some t1, ok1) -> l !! S i = Some (e2, ok2) ->
  if ok1 return Prop then exists t2, e2 = Some t2 /\ t2 < t1 else e2 = Some t1.
Proof.
  induction 1 as [t|t l Hl IH|t t' l Hlt Hl IH]; intros i t1 ok1 e2 ok2 H1 H2.
  - done.
  - destruct i as [|i]; simpl in *; [|by eapply IH].
    injection H1 as <- <-. eapply chain_head; [exact Hl|].
    by rewrite head_lookup, H2.
  - destruct i as [|i]; simpl in *; [|by eapply IH].
    injection H1 as <- <-. exists t'. split; [|done].
    eapply chain_head; [exact Hl|]. by rewrite head_lookup, H2.
Qed.

(** C4 (as amended).  Let the API answer within the requested window and let
    the log hold a cursor for the contract.  In a run of [fetch_contract_data] no request
    ends later than that cursor; the first request ends exactly at it; a
    request that follows a successful one ends strictly earlier, and a retry
    of a failed attempt repeats the end time of that attempt.  With at least
    one round to run and an expiry that parses, there is a first request. *)
Theorem requests_never_after_checkpoint fuel api now c st cursor o tr st' :
  api_in_window api ->
  log st !! localSymbol c = Some cursor ->
  fetch_contract_data fuel api now c 3 st = (o, tr, st') ->
  (forall e ok, (e, ok) ∈ requests tr -> exists t, e = Some t /\ t ≤ cursor)
  /\ (forall e ok, head (requests tr) = Some (e, ok) -> e = Some cursor)
  /\ (forall i t1 (ok1 : bool) e2 (ok2 : bool),
        requests tr !! i = Some (Some t1, ok1) ->
        requests tr !! S i = Some (e2, ok2) ->
        if ok1 return Prop then exists t2, e2 = Some t2 /\ t2 < t1 else e2 = Some t1)
  /\ (is_Some (parse_expiry (lastTradeDateOrContractMonth c)) -> fuel ≠ O ->
      exists ok tr', tr = Request (Some cursor) ok :: tr').
Proof.
  intros Hapi Hc H. unfold fetch_contract_data, init_end_dt in H.
  rewrite Hc in H. simpl in H.
  destruct (parse_expiry _) as [expiry_date|].
  2:{ inversion H; subst. repeat split; try done.
      intros e ok Hin. inversion Hin. }
  assert (Hch : chain cursor (requests tr)) by (by eapply fetching_chain).
  repeat split.
  - intros e ok. by apply chain_bound.
  - intros e ok. by apply chain_head.
  - by apply (chain_adjacent cursor).
  - intros _ Hfuel. destruct fuel as [|fuel]; [done|].
    apply fetching_inv in H as (got & tr_req & n & Hreq & H).
    assert (exists ok tr0, tr_req = Request (Some cursor) ok :: tr0) as (ok & tr0 & ->).
    { rewrite request_three in Hreq.
      destruct (api _ _ _); [|inversion Hreq; eauto].
      destruct (api _ _ _); [|inversion Hreq; eauto].
      destruct (api _ _ _); inversion Hreq; unfold exhausted; eauto. }
    destruct H as [(_ & _ & -> & _)|[(bars & _ & _ & _ & -> & _)|(bars & r & df' & _ & _ & H)]];
      [eauto..|].
    destruct H as [(_ & _ & -> & _)|(_ & tr_rest & _ & ->)]; simpl; eauto.
Qed.

(** ** The Merger *)

Lemma drop_duplicates_from_elem seen df r :
  r ∈ drop_duplicates_from seen df <-> r ∈ df /\ r ∉ seen.
Proof.
  revert seen. induction df as [|x df IH]; intros seen; simpl.
  - split; [by inversion 1|by intros [H _]; inversion H].
  - destruct (decide (x ∈ seen)) as [Hx|Hx].
    + rewrite IH, elem_of_cons. split; [tauto|].
      intros [[->|H] Hn]; [done|tauto].
    + rewrite !elem_of_cons, IH, elem_of_cons. split.
      * intros [->|[H Hn]]; [tauto|]. split; [tauto|]. tauto.
      * intros [[->|H] Hn]; [tauto|].
        destruct (decide (r = x)) as [->|Hne]; [tauto|]. right. tauto.
Qed.

Lemma drop_duplicates_from_NoDup seen df : NoDup (drop_duplicates_from seen df).
Proof.
  revert seen. induction df as [|x df IH]; intros seen; simpl; [constructor|].
  destruct (decide (x ∈ seen)); [done|]. constructor; [|done].
  rewrite drop_duplicates_from_elem, elem_of_cons. tauto.
Qed.

Lemma drop_duplicates_from_id seen df :
  NoDup df -> (forall r, r ∈ df -> r ∉ seen) ->
  drop_duplicates_from seen df = df.
Proof.
  revert seen. induction df as [|x df IH]; intros seen Hnd Hs; simpl; [done|].
  apply NoDup_cons in Hnd as [Hx Hnd].
  destruct (decide (x ∈ seen)) as [Hin|_].
  { exfalso. apply (Hs x); [by left|done]. }
  f_equal. apply IH; [done|].
  intros r Hr. rewrite elem_of_cons. intros [->|Hin]; [done|].
  apply (Hs r); [by right|done].
Qed.

Lemma combine_spec frames :
  StronglySorted date_le (combine frames)
  /\ NoDup (combine frames)
  /\ (forall r, r ∈ combine frames <-> r ∈ concat frames)
  /\ combine frames ≡ₚ drop_duplicates (concat frames).
Proof.
  unfold combine, sort_values.
  pose proof (merge_sort_Permutation date_le (drop_duplicates (concat frames))) as Hp.
  repeat split.
  - apply StronglySorted_merge_sort; apply _.
  - rewrite Hp. apply drop_duplicates_from_NoDup.
  - rewrite Hp. unfold drop_duplicates. rewrite drop_duplicates_from_elem. tauto.
  - rewrite Hp. unfold drop_duplicates. rewrite drop_duplicates_from_elem.
    intros H. split; [done|]. by inversion 1.
  - done.
Qed.

Lemma set_contract_NoDup sym df : NoDup (bar <$> df) -> NoDup (set_contract sym df).
Proof.
  unfold set_contract. induction df as [|x df IH]; simpl; [constructor|].
  intros [Hx Hnd]%NoDup_cons. constructor; [|auto].
  intros Hin. apply list_elem_of_fmap in Hin as (y & [= Hb] & Hy).
  apply Hx. rewrite Hb. by apply list_elem_of_fmap_2.
Qed.

Lemma set_contract_elem sym df r :
  r ∈ set_contract sym df -> contract r = Some sym.
Proof.
  unfold set_contract. intros (y & -> & _)%list_elem_of_fmap. done.
Qed.

Lemma load_contract_Some w c df :
  csv w !! temp_file c = Some df -> df ≠ [] ->
  load_contract w c = Some (set_contract (localSymbol c) df).
Proof. unfold load_contract. intros -> Hne. by destruct df. Qed.

Lemma merger_result w contracts stamp :
  (merger w contracts stamp).2
  = match all_data w contracts with
    | [] => None
    | frames => Some (combine frames)
    end.
Proof. unfold merger. by destruct (all_data w contracts). Qed.

Lemma drop_duplicates_from_length seen df :
  (length (drop_duplicates_from seen df) <= length df)%nat.
Proof.
  revert seen. induction df as [|r df IH]; intros seen; simpl; [done|].
  destruct (decide (r ∈ seen)).
  - specialize (IH seen). lia.
  - specialize (IH (r :: seen)). simpl. lia.
Qed.

Lemma drop_duplicates_from_same_length seen df :
  length (drop_duplicates_from seen df) = length df -> NoDup df.
Proof.
  revert seen. induction df as [|r df IH]; intros seen; simpl; [constructor|].
  destruct (decide (r ∈ seen)) as [Hin|Hin].
  - pose proof (drop_duplicates_from_length seen df). lia.
  - simpl. intros [= Hlen]. constructor; [|by eapply IH].
    intros Hr. pose proof (IH _ Hlen) as Hnd.
    assert (Hid : drop_duplicates_from (r :: seen) df = df -> False).
    { intros Heq. assert (r ∈ drop_duplicates_from (r :: seen) df) as Hr'
        by by rewrite Heq.
      apply drop_duplicates_from_elem in Hr' as [_ Hn]. apply Hn. by left. }
    apply Hid. clear Hid Hr Hin. revert Hlen. generalize (r :: seen). clear.
    induction df as [|x df IHdf]; intros seen; simpl; [done|].
    destruct (decide (x ∈ seen)).
    + pose proof (drop_duplicates_from_length seen df). lia.
    + simpl. intros [= Hlen]. by rewrite IHdf.
Qed.

(** C1 (as amended).  For two contract files that hold rows, the combined
    table is in ascending order of date, has no row twice, and holds exactly
    the rows of the two files, a row being the bar together with the symbol
    of the contract it was loaded for: rows equal in every column are merged
    into one, and only those.  So a file that repeats a bar makes the table
    shorter than the two files together, while two files of different
    contracts that repeat no bar give as many rows as the files together
    (seven for files of three and four rows), whether or not a timestamp
    occurs in both. *)
Theorem merge_keeps_rows_of_both_contracts w c1 c2 df1 df2 :
  csv w !! temp_file c1 = Some df1 -> df1 ≠ [] ->
  csv w !! temp_file c2 = Some df2 -> df2 ≠ [] ->
  let result := combine (all_data w [c1; c2]) in
  StronglySorted date_le result
  /\ NoDup result
  /\ (forall r, r ∈ result <->
        r ∈ set_contract (localSymbol c1) df1 \/ r ∈ set_contract (localSymbol c2) df2)
  /\ (forall stamp, (merger w [c1; c2] stamp).2 = Some result)
  /\ (length result <= length df1 + length df2)%nat
  /\ (~ NoDup (bar <$> df1) \/ ~ NoDup (bar <$> df2) ->
      (length result < length df1 + length df2)%nat)
  /\ (localSymbol c1 ≠ localSymbol c2 ->
      NoDup (bar <$> df1) -> NoDup (bar <$> df2) ->
      length result = (length df1 + length df2)%nat).
Proof.
  intros H1 Hne1 H2 Hne2 result.
  assert (Hall : all_data w [c1; c2]
                 = [set_contract (localSymbol c1) df1; set_contract (localSymbol c2) df2]).
  { unfold all_data. simpl.
    by rewrite (load_contract_Some w c1 df1), (load_contract_Some w c2 df2). }
  destruct (combine_spec (all_data w [c1; c2])) as (Hs & Hn & He & Hp).
  fold result in Hs, Hn, He, Hp. rewrite Hall in He, Hp. simpl in He, Hp.
  rewrite app_nil_r in He, Hp.
  assert (Hlen : length (set_contract (localSymbol c1) df1
                         ++ set_contract (localSymbol c2) df2)
                 = (length df1 + length df2)%nat).
  { unfold set_contract. by rewrite length_app, !length_fmap. }
  assert (Hle : (length result <= length df1 + length df2)%nat).
  { rewrite Hp, <- Hlen. apply drop_duplicates_from_length. }
  split; [done|]. split; [done|]. split.
  { intros r. rewrite He. apply elem_of_app. }
  split.
  { intros stamp. rewrite merger_result. unfold result. by rewrite Hall. }
  split; [done|]. split.
  - intros Hdup.
    destruct (decide (length result = length df1 + length df2)%nat) as [Heq|]; [|lia].
    exfalso. rewrite Hp, <- Hlen in Heq.
    apply drop_duplicates_from_same_length in Heq.
    apply NoDup_app in Heq as (Hn1 & _ & Hn2).
    unfold set_contract in Hn1, Hn2.
    assert (Htag : forall sym (df : DataFrame),
              NoDup ((fun r => mk_row (bar r) (Some sym)) <$> df) -> NoDup (bar <$> df)).
    { intros sym df. induction df as [|x df IHdf]; [constructor|].
      rewrite !fmap_cons. intros [Hx Hnd]%NoDup_cons. constructor; [|auto].
      intros (y & Hb & Hy)%list_elem_of_fmap. apply Hx.
      apply list_elem_of_fmap. exists y. by rewrite Hb. }
    destruct Hdup as [Hd|Hd]; apply Hd; by eapply Htag.
  - intros Hsym Hnd1 Hnd2. rewrite Hp, <- Hlen. f_equal.
    unfold drop_duplicates. apply drop_duplicates_from_id.
    + apply NoDup_app. repeat split; [by apply set_contract_NoDup| |by apply set_contract_NoDup].
      intros r Hr1 Hr2. apply set_contract_elem in Hr1, Hr2. congruence.
    + intros r _. by inversion 1.
Qed.

Lemma chars_app s1 s2 :
  list_ascii_of_string (s1 +:+ s2)
  = list_ascii_of_string s1 ++ list_ascii_of_string s2.
Proof. induction s1 as [|a s1 IH]; simpl; [done|]. by rewrite IH. Qed.

(** The log is not one of the CSV files, which is why the disk keeps it
    apart. *)
Lemma log_file_not_csv c stamp :
  log_file ≠ temp_file c /\ log_file ≠ out_file stamp.
Proof.
  unfold log_file, temp_file, out_file.
  split; intros Heq; apply (f_equal list_ascii_of_string) in Heq;
    rewrite !chars_app in Heq; apply (f_equal reverse) in Heq;
    rewrite !reverse_app in Heq; simpl in Heq; by injection Heq.
Qed.

(** The output file is never the file of a contract: its name ends in a
    character of the time stamp (or of ["MES_1min_"]) followed by [".csv"],
    not in ["_temp.csv"]. *)
Lemma out_file_not_temp stamp c :
  is_stamp stamp = true -> out_file stamp ≠ temp_file c.
Proof.
  unfold is_stamp, out_file, temp_file. intros Hs Heq.
  apply (f_equal list_ascii_of_string) in Heq.
  rewrite !chars_app in Heq.
  apply (f_equal reverse) in Heq. rewrite !reverse_app in Heq.
  change (reverse (list_ascii_of_string ".csv")) with (list_ascii_of_string "vsc.") in Heq.
  change (reverse (list_ascii_of_string "_temp.csv"))
    with (list_ascii_of_string "vsc.pmet_") in Heq.
  change (reverse (list_ascii_of_string "MES_1min_"))
    with (list_ascii_of_string "_nim1_SEM") in Heq.
  simpl in Heq.
  destruct (reverse (list_ascii_of_string stamp)) as [|x l] eqn:Hr.
  - simpl in Heq. by injection Heq.
  - simpl in Heq. injection Heq as Hx _.
    assert (Hin : x ∈ list_ascii_of_string stamp).
    { apply elem_of_reverse. rewrite Hr. by left. }
    rewrite forallb_forall in Hs.
    apply list_elem_of_In, Hs in Hin. by rewrite Hx in Hin.
Qed.

Lemma all_data_ext w w' contracts :
  (forall c, c ∈ contracts -> csv w' !! temp_file c = csv w !! temp_file c) ->
  all_data w' contracts = all_data w contracts.
Proof.
  unfold all_data. induction contracts as [|c rest IH]; intros H; [done|].
  csimpl. rewrite IH by (intros c' Hc'; apply H; by right).
  unfold load_contract. by rewrite (H c) by by left.
Qed.

Lemma merger_keeps_temp_files w contracts stamp c :
  is_stamp stamp = true ->
  csv (merger w contracts stamp).1 !! temp_file c = csv w !! temp_file c.
Proof.
  intros Hs. unfold merger. destruct (all_data w contracts); [done|].
  simpl. by rewrite lookup_insert_ne by by apply out_file_not_temp.
Qed.

(** C9.  The combined table is determined by the per-contract files and the
    order of the contracts: two disks that agree on those files give the same
    table, row for row, whatever else they hold and whenever the Merger runs.
    In particular a second run on the disk the first run left produces the
    table of the first run again, since the output file of the first run is
    not one of the files the second run loads. *)
Theorem merger_twice_same_table w contracts stamp1 stamp2 :
  is_stamp stamp1 = true ->
  (merger (merger w contracts stamp1).1 contracts stamp2).2
  = (merger w contracts stamp1).2
  /\ (forall c, csv (merger w contracts stamp1).1 !! temp_file c
               = csv w !! temp_file c)
  /\ (forall w' stamp',
        (forall c, c ∈ contracts -> csv w' !! temp_file c = csv w !! temp_file c) ->
        (merger w' contracts stamp').2 = (merger w contracts stamp1).2).
Proof.
  intros Hs.
  assert (Hext : forall w' stamp',
    (forall c, c ∈ contracts -> csv w' !! temp_file c = csv w !! temp_file c) ->
    (merger w' contracts stamp').2 = (merger w contracts stamp1).2).
  { intros w' stamp' H. by rewrite !merger_result, (all_data_ext w w'). }
  split; [|split; [|done]].
  - apply Hext. intros c _. by apply merger_keeps_temp_files.
  - intros c. by apply merger_keeps_temp_files.
Qed.

(** ** The runs of the scenario *)

(** The run of the scenario, and a second one resumed from its checkpoint. *)
Lemma Scenario_run_eq :
  Scenario.run = (DONE, Scenario.trace, mk_mem 3 Scenario.log2).
Proof. vm_compute. reflexivity. Qed.

Lemma Scenario_api_window : api_in_window Scenario.api.
Proof.
  intros n c t bars b [= <-] Hb.
  apply list_elem_of_filter in Hb as [Hb _]. by apply Z.leb_le in Hb.
Qed.

Lemma Scenario_resumed_run_eq :
  fetch_contract_data 3 Scenario.resumed_api Scenario.now Scenario.MESM6 3
    (mk_mem 0 (load_log Scenario.resumed_disk))
  = (DONE, Scenario.resumed_trace,
     mk_mem 2 (<[ "MESM6" := Scenario.now - 300 ]> Scenario.resumed_log)).
Proof. vm_compute. reflexivity. Qed.

Lemma Scenario_merger_eq :
  merger Scenario.merge_disk [Scenario.MESM6; Scenario.MESU6] "20260601_120000"
  = (write_csv "MES_1min_20260601_120000.csv" Scenario.combined Scenario.merge_disk,
     Some Scenario.combined).
Proof. vm_compute. reflexivity. Qed.

(** C1, the scenario as the specification has it: files of three and of four
    rows with one timestamp in common.  The combined table has seven rows,
    not six: the two rows of the common timestamp belong to different
    contracts and are both kept. *)
Lemma merge_overlap_keeps_seven_rows :
  length Scenario.file_M6 = 3%nat
  /\ length Scenario.file_U6 = 4%nat
  /\ filter (fun t => t ∈ row_date <$> Scenario.file_U6) (row_date <$> Scenario.file_M6)
     = [Scenario.now - 180]
  /\ exists result,
       (merger Scenario.merge_disk [Scenario.MESM6; Scenario.MESU6] "20260601_120000").2
       = Some result
       /\ length result = 7%nat
       /\ length result ≠ 6%nat.
Proof.
  split; [done|]. split; [done|]. split; [by vm_compute|].
  exists Scenario.combined. rewrite Scenario_merger_eq. by repeat split.
Qed.

Lemma merge_keeps_rows_of_both_contracts_witness :
  length (combine (all_data Scenario.merge_disk [Scenario.MESM6; Scenario.MESU6]))
  = (length Scenario.file_M6 + length Scenario.file_U6)%nat.
Proof.
  destruct (merge_keeps_rows_of_both_contracts Scenario.merge_disk
              Scenario.MESM6 Scenario.MESU6 Scenario.file_M6 Scenario.file_U6)
    as (_ & _ & _ & _ & _ & _ & H).
  - vm_compute. reflexivity.
  - discriminate.
  - vm_compute. reflexivity.
  - discriminate.
  - apply H.
    + discriminate.
    + apply (bool_decide_unpack _). vm_compute. exact I.
    + apply (bool_decide_unpack _). vm_compute. exact I.
Defined.

Lemma merger_twice_same_table_witness :
  (merger (merger Scenario.merge_disk [Scenario.MESM6; Scenario.MESU6]
                  "20260601_120000").1
          [Scenario.MESM6; Scenario.MESU6] "20260601_120500").2
  = (merger Scenario.merge_disk [Scenario.MESM6; Scenario.MESU6] "20260601_120000").2.
Proof.
  destruct (merger_twice_same_table Scenario.merge_disk
              [Scenario.MESM6; Scenario.MESU6] "20260601_120000" "20260601_120500")
    as [H _].
  - reflexivity.
  - exact H.
Defined.

(** C2, as stated: in the run of the scenario, once the second page is in the
    file and before its checkpoint is dumped, the cursor on disk is still the
    one of the first page, 60 seconds above the new row. *)
Lemma checkpoint_above_rows_inside_round :
  Scenario.run = (DONE, Scenario.trace, mk_mem 3 Scenario.log2)
  /\ take 6 Scenario.trace `prefix_of` Scenario.trace
  /\ load_log (replay Scenario.empty_disk (take 6 Scenario.trace)) !! "MESM6"
     = Some (Scenario.now - 180)
  /\ mk_row (Scenario.bar_at (Scenario.now - 240)) None
       ∈ file_rows (replay Scenario.empty_disk (take 6 Scenario.trace)) Scenario.MESM6
  /\ ~ checkpoint_inv Scenario.MESM6
         (replay Scenario.empty_disk (take 6 Scenario.trace)).
Proof.
  assert (Hl : load_log (replay Scenario.empty_disk (take 6 Scenario.trace)) !! "MESM6"
               = Some (Scenario.now - 180)) by (vm_compute; reflexivity).
  assert (Hf : file_rows (replay Scenario.empty_disk (take 6 Scenario.trace)) Scenario.MESM6
               = Scenario.page1 ++ Scenario.page2) by (vm_compute; reflexivity).
  assert (Hr : mk_row (Scenario.bar_at (Scenario.now - 240)) None
               ∈ file_rows (replay Scenario.empty_disk (take 6 Scenario.trace))
                   Scenario.MESM6).
  { rewrite Hf. apply elem_of_app. right. by left. }
  split; [by vm_compute|]. split; [apply prefix_take|]. split; [done|]. split; [done|].
  intros Hinv. specialize (Hinv _ Hl _ Hr). unfold row_date in Hinv. simpl in Hinv. lia.
Qed.

Lemma checkpoint_below_rows_between_rounds_witness :
  checkpoint_inv Scenario.MESM6 (replay Scenario.empty_disk (take 8 Scenario.trace)).
Proof.
  apply (checkpoint_below_rows_between_rounds 3 Scenario.api Scenario.now
           Scenario.MESM6 0 Scenario.empty_disk DONE Scenario.trace
           (mk_mem 3 Scenario.log2)).
  - intros n c t bars b [= <-] Hb.
    apply list_elem_of_filter in Hb as [Hb _]. by apply Z.leb_le in Hb.
  - intros cursor Hc. discriminate Hc.
  - reflexivity.
  - vm_compute. reflexivity.
  - apply prefix_take.
  - exists (take 8 Scenario.trace), []. split; [reflexivity|]. split; [|constructor].
    right. exists (take 7 Scenario.trace), Scenario.log2. reflexivity.
Defined.

Lemma checkpoint_after_every_page_witness :
  log_json
    (replay Scenario.empty_disk
       ([Request None true]
        ++ [ToCsv (temp_file Scenario.MESM6) Scenario.page1; Sleep rate_limit_ms;
            JsonDump (<[localSymbol Scenario.MESM6 := Scenario.now - 120 - 60]> ∅)]))
  = Some (<[localSymbol Scenario.MESM6 := Scenario.now - 120 - 60]> ∅).
Proof.
  destruct (proj1 checkpoint_after_every_page 0%nat Scenario.api Scenario.MESM6
              (two_years_ago Scenario.now) None (mk_mem 0 ∅) (Scenario.feed 0)
              [Request None true] 1%nat
              (mk_row (Scenario.bar_at (Scenario.now - 120)) None)
              [mk_row (Scenario.bar_at (Scenario.now - 60)) None]
              eq_refl eq_refl) as (_ & H & _).
  apply (H Scenario.empty_disk).
Defined.

(** C4 as the specification words it does not hold, on two counts.  A
    retry of a failed attempt repeats the end time of that attempt (line 97
    is run again with the same [end_dt]), so the end times of successive
    requests are not strictly decreasing.  And the end time of the next
    page is taken from the answer as it comes (line 138): with the cursor
    [now - 180] stored and an API that returns a bar stamped after the
    requested end, the second request ends an hour after the stored
    cursor. *)
Lemma request_end_times_not_strictly_earlier :
  Scenario.log1 !! localSymbol Scenario.MESM6 = Some (Scenario.now - 180)
  /\ requests
       (fetch_contract_data 1 Scenario.flaky_api Scenario.now Scenario.MESM6 3
          (mk_mem 0 Scenario.log1)).1.2
     = [(Some (Scenario.now - 180), false); (Some (Scenario.now - 180), true)]
  /\ requests
       (fetch_contract_data 2 Scenario.late_api Scenario.now Scenario.MESM6 3
          (mk_mem 0 Scenario.log1)).1.2
     = [(Some (Scenario.now - 180), true); (Some (Scenario.now + 3540), true)]
  /\ Scenario.now - 180 < Scenario.now + 3540.
Proof. split; [by vm_compute|]. split; [by vm_compute|]. split; [by vm_compute|]. lia. Qed.

Lemma requests_never_after_checkpoint_witness :
  exists ok tr',
    Scenario.resumed_trace = Request (Some (Scenario.now - 180)) ok :: tr'.
Proof.
  apply (requests_never_after_checkpoint 3 Scenario.resumed_api Scenario.now
           Scenario.MESM6 (mk_mem 0 (load_log Scenario.resumed_disk))
           (Scenario.now - 180) DONE Scenario.resumed_trace
           (mk_mem 2 (<[ "MESM6" := Scenario.now - 300 ]> Scenario.resumed_log))).
  - intros n c t bars b [= <-] Hb.
    apply list_elem_of_filter in Hb as [Hb _]. by apply Z.leb_le in Hb.
  - vm_compute. reflexivity.
  - vm_compute. reflexivity.
  - vm_compute. eauto.
  - discriminate.
Defined.

(** C8, as stated: in the run of the scenario, when the first rate-limit
    sleep has taken place the rows of the page are in the file, and no
    checkpoint has been written yet; the dump is the next event. *)
Lemma sleep_before_checkpoint_is_written :
  Scenario.run = (DONE, Scenario.trace, mk_mem 3 Scenario.log2)
  /\ Scenario.trace
     = take 2 Scenario.trace ++ Sleep rate_limit_ms :: JsonDump Scenario.log1
         :: drop 4 Scenario.trace
  /\ csv (replay Scenario.empty_disk (take 2 Scenario.trace ++ [Sleep rate_limit_ms]))
       !! temp_file Scenario.MESM6 = Some Scenario.page1
  /\ log_json (replay Scenario.empty_disk (take 2 Scenario.trace ++ [Sleep rate_limit_ms]))
     = None.
Proof. repeat split; by vm_compute. Qed.

Lemma append_then_sleep_then_checkpoint_witness :
  exists p' r df' log' q',
    take 2 Scenario.trace = p' ++ [ToCsv (temp_file Scenario.MESM6) (r :: df')]
    /\ drop 3 Scenario.trace = JsonDump log' :: q'
    /\ log' !! localSymbol Scenario.MESM6 = Some (min_date r df' - 60)
    /\ (forall w, log_json (replay w (take 2 Scenario.trace ++ [Sleep rate_limit_ms]))
                  = log_json (replay w p')).
Proof.
  apply (append_then_sleep_then_checkpoint 3 Scenario.api Scenario.MESM6
           (two_years_ago Scenario.now) None (mk_mem 0 ∅) DONE Scenario.trace
           (mk_mem 3 Scenario.log2)).
  - vm_compute. reflexivity.
  - reflexivity.
Defined.


(** * Further properties of the script *)

(** ** The retry loop for any [max_retries] *)

Lemma attempts_spec api c end_dt m remaining :
  forall retry n got tr n',
  (retry + remaining = m)%nat ->
  attempts api c end_dt m retry remaining n = (got, tr, n') ->
  length (requests tr) = (n' - n)%nat /\
  match got with
  | Abandon =>
      (1 <= remaining)%nat /\ n' = (n + remaining)%nat /\
      (forall k, (k < remaining)%nat -> api (n + k)%nat c end_dt = Raises) /\
      sleeps tr = backoff_sleeps retry (remaining - 1)
  | Bars (Some bars) =>
      exists k, (k < remaining)%nat /\ n' = S (n + k) /\
        api (n + k)%nat c end_dt = Returns bars /\
        (forall j, (j < k)%nat -> api (n + j)%nat c end_dt = Raises) /\
        sleeps tr = backoff_sleeps retry k
  | Bars None => remaining = O /\ tr = [] /\ n' = n
  end.
Proof.
  induction remaining as [|remaining IH]; intros retry n got tr n' Hm H.
  { inversion H; subst. split; [simpl; lia|done]. }
  cbn [attempts] in H.
  destruct (api n c end_dt) as [|bars] eqn:Hn.
  2:{ inversion H; subst. split; [simpl; lia|].
      exists O. rewrite Nat.add_0_r. repeat split; [lia|done|lia]. }
  destruct (Z.of_nat retry <? Z.of_nat m - 1) eqn:Hlt.
  - destruct (attempts api c end_dt m (S retry) remaining (S n)) as [[r tr1] n1] eqn:Hrec.
    inversion H; subst. clear H.
    apply IH in Hrec as [Hlen Hrec]; [|lia].
    split.
    { change (length (requests (Request end_dt false :: Sleep (1000 * 2 ^ Z.of_nat retry) :: tr1)))
        with (S (length (requests tr1))).
      destruct got as [[bars|]|].
      - destruct Hrec as (k & _ & -> & _). lia.
      - destruct Hrec as (-> & _ & _). apply Z.ltb_lt in Hlt. lia.
      - destruct Hrec as (_ & -> & _). lia. }
    destruct got as [[bars|]|].
    + destruct Hrec as (k & Hk & -> & Hret & Hfail & Hs).
      exists (S k). repeat split.
      * lia.
      * lia.
      * by replace (n + S k)%nat with (S n + k)%nat by lia.
      * intros [|j] Hj; [by rewrite Nat.add_0_r|].
        replace (n + S j)%nat with (S n + j)%nat by lia. apply Hfail. lia.
      * change (sleeps (Request end_dt false :: Sleep (1000 * 2 ^ Z.of_nat retry) :: tr1))
          with (1000 * 2 ^ Z.of_nat retry :: sleeps tr1).
        by rewrite Hs.
    + destruct Hrec as (-> & _ & _). apply Z.ltb_lt in Hlt. lia.
    + destruct Hrec as (H1 & -> & Hfail & Hs). repeat split.
      * lia.
      * lia.
      * intros [|k] Hk; [by rewrite Nat.add_0_r|].
        replace (n + S k)%nat with (S n + k)%nat by lia. apply Hfail. lia.
      * change (sleeps (Request end_dt false :: Sleep (1000 * 2 ^ Z.of_nat retry) :: tr1))
          with (1000 * 2 ^ Z.of_nat retry :: sleeps tr1).
        rewrite Hs. destruct remaining as [|remaining]; [lia|].
        by replace (S (S remaining) - 1)%nat with (S (S remaining - 1)) by lia.
  - inversion H; subst. apply Z.ltb_ge in Hlt.
    assert (remaining = O) as -> by lia.
    split; [simpl; lia|]. repeat split; [lia|lia|].
    intros k Hk. by replace k with O by lia; rewrite Nat.add_0_r.
Qed.

Lemma backoff_sleeps_sum retry k :
  foldr Z.add 0 (backoff_sleeps retry k)
  = 1000 * (2 ^ Z.of_nat (retry + k) - 2 ^ Z.of_nat retry).
Proof.
  revert retry. induction k as [|k IH]; intros retry.
  - rewrite Nat.add_0_r. simpl. lia.
  - unfold backoff_sleeps in *. simpl. rewrite IH.
    replace (Z.of_nat (S retry + k)) with (Z.of_nat retry + Z.of_nat k + 1) by lia.
    replace (Z.of_nat (retry + S k)) with (Z.of_nat retry + Z.of_nat k + 1) by lia.
    replace (Z.of_nat (S retry)) with (Z.of_nat retry + 1) by lia.
    rewrite !Z.pow_add_r by lia. lia.
Qed.

(** X6.  The retry loop for any bound [max_retries]: it makes one call per
    attempt and never more than [max_retries]; it returns the bars of the
    first call that succeeds, having slept 1, 2, 4, ... seconds after the
    failures before it; it gives up exactly when [max_retries >= 1] calls
    fail in a row, after [2^(max_retries-1) - 1] seconds of sleep in all.
    With [max_retries = 0] no call is made, and the page loop ends at once
    as if the contract had no data. *)
Theorem retry_loop_for_any_bound :
  (forall api c end_dt m n got tr n',
     request api c end_dt m n = (got, tr, n') ->
     length (requests tr) = (n' - n)%nat /\ (n' <= n + m)%nat /\
     match got with
     | Abandon =>
         (1 <= m)%nat /\ n' = (n + m)%nat /\
         (forall k, (k < m)%nat -> api (n + k)%nat c end_dt = Raises) /\
         sleeps tr = backoff_sleeps 0 (m - 1) /\
         foldr Z.add 0 (sleeps tr) = 1000 * (2 ^ Z.of_nat (m - 1) - 1)
     | Bars (Some bars) =>
         exists k, (k < m)%nat /\ n' = S (n + k) /\
           api (n + k)%nat c end_dt = Returns bars /\
           (forall j, (j < k)%nat -> api (n + j)%nat c end_dt = Raises) /\
           sleeps tr = backoff_sleeps 0 k
     | Bars None => m = O /\ tr = [] /\ n' = n
     end)
  /\ (forall fuel api c start_date end_dt st,
        fetching (S fuel) api c 0 start_date end_dt st
        = (DONE, [], mk_mem (calls st) (log st))).
Proof.
  split; [|done].
  intros api c end_dt m n got tr n' H. unfold request in H.
  apply attempts_spec in H as [Hlen H]; [|lia].
  split; [done|].
  destruct got as [[bars|]|].
  - destruct H as (k & Hk & -> & H). split; [lia|]. by exists k.
  - destruct H as (-> & -> & ->). split; [lia|done].
  - destruct H as (H1 & -> & Hf & Hs). split; [lia|]. repeat split; try done.
    rewrite Hs, backoff_sleeps_sum. simpl. lia.
Qed.

Lemma retry_loop_for_any_bound_witness :
  sleeps [Request None false; Sleep 1000; Request None false; Sleep 2000;
          Request None false; Sleep 4000; Request None false]
  = backoff_sleeps 0 (4 - 1).
Proof.
  destruct (proj1 retry_loop_for_any_bound (fun _ _ _ => Raises) Scenario.MESM6 None
              4%nat 0%nat Abandon
              [Request None false; Sleep 1000; Request None false; Sleep 2000;
               Request None false; Sleep 4000; Request None false] 4%nat eq_refl)
    as (_ & _ & _ & _ & _ & H & _).
  exact H.
Defined.

(** ** What a run writes *)

Lemma backoff_not_to_csv tr file df :
  Forall (fun e => backoff_event e = true) tr -> ToCsv file df ∉ tr.
Proof.
  intros Hb Hin. rewrite Forall_forall in Hb. by apply Hb in Hin.
Qed.

Lemma fetching_to_csv fuel api c start_date :
  forall end_dt st o tr st',
  fetching fuel api c 3 start_date end_dt st = (o, tr, st') ->
  forall file df, ToCsv file df ∈ tr ->
  file = temp_file c /\
  exists n end_dt' bars,
    api n c end_dt' = Returns bars /\ df = survivors start_date bars /\ df ≠ [].
Proof.
  induction fuel as [|fuel IH]; intros end_dt st o tr st' H file df Hin.
  { inversion H; subst. inversion Hin. }
  apply fetching_inv in H as (got & tr_req & n & Hreq & H).
  pose proof (request_backoff _ _ _ _ _ _ _ Hreq) as Hb.
  destruct H as [(_ & _ & -> & _)|[(bars & _ & _ & _ & -> & _)|(bars & r & df' & -> & Hdf & H)]].
  - by apply backoff_not_to_csv in Hin.
  - by apply backoff_not_to_csv in Hin.
  - assert (Hpage : ToCsv file df ∈ tr_req ++ page_events c r df' (log st) ->
               file = temp_file c /\
               exists n end_dt' bars,
                 api n c end_dt' = Returns bars /\ df = survivors start_date bars /\ df ≠ []).
    { intros Hp. apply elem_of_app in Hp as [Hp|Hp]; [by apply backoff_not_to_csv in Hp|].
      unfold page_events in Hp.
      apply elem_of_cons in Hp as [[= -> ->]|Hp].
      - split; [done|]. apply request_returns in Hreq as [k Hk].
        exists k, end_dt, bars. by rewrite Hdf.
      - apply elem_of_cons in Hp as [?|Hp]; [done|].
        apply elem_of_cons in Hp as [?|Hp]; [done|]. inversion Hp. }
    destruct H as [(_ & _ & -> & _)|(_ & tr_rest & Hrec & ->)]; [by apply Hpage|].
    apply elem_of_app in Hin as [Hin|Hin]; [by apply Hpage|].
    by eapply IH.
Qed.

Lemma fetch_contract_data_to_csv fuel api now c st o tr st' file df :
  fetch_contract_data fuel api now c 3 st = (o, tr, st') ->
  ToCsv file df ∈ tr ->
  file = temp_file c /\
  exists n end_dt bars,
    api n c end_dt = Returns bars /\ df = survivors (two_years_ago now) bars /\ df ≠ [].
Proof.
  unfold fetch_contract_data. destruct (init_end_dt _ _ _) as [end_dt|].
  - intros H Hin. by eapply fetching_to_csv.
  - intros [= _ <- _] Hin. inversion Hin.
Qed.

(** X8.  Whatever a run of [fetch_contract_data] writes goes to the file of
    its own contract, and each write is the part of one API answer that is
    not older than two years, in the order of the answer and never empty: no
    row older than [now - 730 days] reaches the file, and no row carries a
    [contract] column yet. *)
Theorem run_writes_recent_rows_of_own_contract
    fuel api now c st o tr st' file df :
  fetch_contract_data fuel api now c 3 st = (o, tr, st') ->
  ToCsv file df ∈ tr ->
  file = temp_file c /\ df ≠ [] /\
  (exists n end_dt bars,
     api n c end_dt = Returns bars /\
     df = filter (fun r => two_years_ago now ≤ row_date r) (util_df bars)) /\
  (forall r, r ∈ df -> now - 730 * 86400 ≤ row_date r /\ contract r = None).
Proof.
  intros H Hin.
  destruct (fetch_contract_data_to_csv _ _ _ _ _ _ _ _ _ _ H Hin)
    as (-> & n & end_dt & bars & Hapi & -> & Hne).
  split; [done|]. split; [done|]. split; [by exists n, end_dt, bars|].
  intros r Hr. apply list_elem_of_filter in Hr as [Hd Hr]. split; [exact Hd|].
  by apply list_elem_of_fmap in Hr as (b & -> & _).
Qed.

Lemma run_writes_recent_rows_of_own_contract_witness :
  "MESM6_temp.csv" = temp_file Scenario.MESM6 /\ Scenario.page2 ≠ [] /\
  (exists n end_dt bars,
     Scenario.api n Scenario.MESM6 end_dt = Returns bars /\
     Scenario.page2
     = filter (fun r => two_years_ago Scenario.now ≤ row_date r) (util_df bars)) /\
  (forall r, r ∈ Scenario.page2 ->
     Scenario.now - 730 * 86400 ≤ row_date r /\ contract r = None).
Proof.
  apply (run_writes_recent_rows_of_own_contract 3 Scenario.api Scenario.now
           Scenario.MESM6 (mk_mem 0 (load_log Scenario.empty_disk)) DONE
           Scenario.trace (mk_mem 3 Scenario.log2)).
  - vm_compute. reflexivity.
  - do 5 right. left.
Defined.

(** ** The disk during the per-contract loop *)

Lemma fetch_all_to_csv fuel api clock contracts :
  forall i st os tr st' file df,
  fetch_all fuel api clock i contracts st = (os, tr, st') ->
  ToCsv file df ∈ tr ->
  exists c, c ∈ contracts /\ file = temp_file c.
Proof.
  induction contracts as [|c rest IH]; intros i st os tr st' file df H Hin.
  { inversion H; subst. inversion Hin. }
  cbn [fetch_all] in H.
  destruct (fetch_contract_data fuel api (clock i) c 3 st) as [[o1 tr1] st1] eqn:H1.
  destruct (fetch_all fuel api clock (S i) rest st1) as [[os2 tr2] st2] eqn:H2.
  inversion H; subst. apply elem_of_app in Hin as [Hin|Hin].
  - exists c. split; [by left|].
    by destruct (fetch_contract_data_to_csv _ _ _ _ _ _ _ _ _ _ H1 Hin) as [-> _].
  - destruct (IH _ _ _ _ _ _ _ H2 Hin) as (c' & Hc' & ->).
    exists c'. split; [by right|done].
Qed.

Lemma perform_append_only w e f :
  default [] (csv w !! f) `prefix_of` default [] (csv (perform w e) !! f)
  /\ (is_Some (csv w !! f) -> is_Some (csv (perform w e) !! f)).
Proof.
  destruct e as [| |file df|]; simpl; try done.
  destruct (decide (file = f)) as [->|Hne].
  - rewrite lookup_insert_eq. simpl. split; [by apply prefix_app_r|eauto].
  - by rewrite lookup_insert_ne.
Qed.

Lemma replay_append_only w tr f :
  default [] (csv w !! f) `prefix_of` default [] (csv (replay w tr) !! f)
  /\ (is_Some (csv w !! f) -> is_Some (csv (replay w tr) !! f)).
Proof.
  revert w. induction tr as [|e tr IH]; intros w; [done|].
  simpl. destruct (perform_append_only w e f) as [H1 H2].
  destruct (IH (perform w e)) as [H3 H4].
  split; [by etrans|auto].
Qed.

Lemma replay_csv_other w tr f :
  (forall file df, ToCsv file df ∈ tr -> file ≠ f) ->
  csv (replay w tr) !! f = csv w !! f.
Proof.
  revert w. induction tr as [|e tr IH]; intros w H; [done|].
  simpl. rewrite IH by (intros file df Hin; apply (H file df); by right).
  destruct e as [| |file df|]; simpl; try done.
  rewrite lookup_insert_ne; [done|]. apply (H file df). by left.
Qed.

(** X12.  At every point of the per-contract loop every CSV file on disk still
    begins with the rows it held at the start (files are only appended to,
    none is removed), and a file that is not the temp file of one of the
    contracts being fetched is not touched at all. *)
Theorem fetch_loop_only_appends_to_its_files
    fuel api clock i contracts st os tr st' w p f :
  fetch_all fuel api clock i contracts st = (os, tr, st') ->
  p `prefix_of` tr ->
  default [] (csv w !! f) `prefix_of` default [] (csv (replay w p) !! f)
  /\ (is_Some (csv w !! f) -> is_Some (csv (replay w p) !! f))
  /\ ((forall c, c ∈ contracts -> f ≠ temp_file c) ->
      csv (replay w p) !! f = csv w !! f).
Proof.
  intros H [k ->].
  destruct (replay_append_only w p f) as [H1 H2]. split; [done|]. split; [done|].
  intros Hf. apply replay_csv_other. intros file df Hin Heq.
  destruct (fetch_all_to_csv fuel api clock contracts i st os (p ++ k) st' file df H)
    as (c & Hc & ->); [apply elem_of_app; by left|].
  by apply (Hf c).
Qed.

Lemma fetch_loop_only_appends_to_its_files_witness :
  csv (replay Scenario.merge_disk Scenario.trace) !! "MESU6_temp.csv"
  = csv Scenario.merge_disk !! "MESU6_temp.csv".
Proof.
  apply (fetch_loop_only_appends_to_its_files 3 Scenario.api (fun _ => Scenario.now)
           0 [Scenario.MESM6] (mk_mem 0 ∅) [("MESM6", DONE)] Scenario.trace
           (mk_mem 3 Scenario.log2) Scenario.merge_disk Scenario.trace "MESU6_temp.csv").
  - vm_compute. reflexivity.
  - reflexivity.
  - intros c Hc. apply list_elem_of_singleton in Hc as ->. discriminate.
Defined.

(** ** The log in memory and the log on disk *)






(** ** Pages of one run do not overlap *)

Lemma pages_app tr1 tr2 : pages (tr1 ++ tr2) = pages tr1 ++ pages tr2.
Proof. apply omap_app. Qed.

Lemma pages_backoff tr :
  Forall (fun e => backoff_event e = true) tr -> pages tr = [].
Proof.
  induction 1 as [|e tr He _ IH]; [done|]. by destruct e.
Qed.

Lemma pages_elem tr df : df ∈ pages tr -> exists file, ToCsv file df ∈ tr.
Proof.
  unfold pages. rewrite list_elem_of_omap. intros (e & He & Hdf).
  destruct e as [| |file df0|]; simplify_eq/=. by exists file.
Qed.

Lemma fetching_rows_below fuel api c start_date :
  api_in_window api ->
  forall t st o tr st',
  fetching fuel api c 3 start_date (Some t) st = (o, tr, st') ->
  forall df r, df ∈ pages tr -> r ∈ df -> row_date r ≤ t.
Proof.
  intros Hapi. induction fuel as [|fuel IH]; intros t st o tr st' H df r Hdf Hr.
  { inversion H; subst. inversion Hdf. }
  apply fetching_inv in H as (got & tr_req & n & Hreq & H).
  pose proof (request_backoff _ _ _ _ _ _ _ Hreq) as Hb.
  destruct H as [(_ & _ & -> & _)|[(bars & _ & _ & _ & -> & _)|(bars & r0 & df' & -> & Hsv & H)]].
  - rewrite pages_backoff in Hdf by done. inversion Hdf.
  - rewrite pages_backoff in Hdf by done. inversion Hdf.
  - assert (Hfirst : forall x, x ∈ r0 :: df' -> row_date x ≤ t).
    { intros x Hx. apply request_returns in Hreq as [k Hk].
      eapply survivors_in_window; [done..|]. by rewrite Hsv. }
    assert (Hpg : pages (tr_req ++ page_events c r0 df' (log st)) = [r0 :: df']).
    { by rewrite pages_app, pages_backoff. }
    destruct H as [(_ & _ & -> & _)|(_ & tr_rest & Hrec & ->)].
    + rewrite Hpg in Hdf. apply list_elem_of_singleton in Hdf as ->. by apply Hfirst.
    + rewrite pages_app, Hpg in Hdf. apply elem_of_cons in Hdf as [->|Hdf];
        [by apply Hfirst|].
      specialize (IH _ _ _ _ _ Hrec df r Hdf Hr).
      pose proof (min_date_le r0 df' r0 ltac:(by left)).
      specialize (Hfirst r0 ltac:(by left)).
      unfold new_end_dt, Calendar.minutes in IH. lia.
Qed.

(** X9.  With an API that answers within the requested window, the pages one
    run of the page loop writes do not overlap: every row of a later page is
    at least one minute earlier than every row of any page written before
    it, so the run writes no timestamp twice. *)
Theorem later_pages_are_strictly_earlier fuel api c start_date :
  api_in_window api ->
  forall end_dt st o tr st' (i j : nat) (df1 df2 : DataFrame) r1 r2,
  fetching fuel api c 3 start_date end_dt st = (o, tr, st') ->
  (i < j)%nat ->
  pages tr !! i = Some df1 -> pages tr !! j = Some df2 ->
  r1 ∈ df1 -> r2 ∈ df2 ->
  row_date r2 + 60 ≤ row_date r1.
Proof.
  intros Hapi. induction fuel as [|fuel IH];
    intros end_dt st o tr st' i j df1 df2 r1 r2 H Hij H1 H2 Hr1 Hr2.
  { by inversion H; subst. }
  apply fetching_inv in H as (got & tr_req & n & Hreq & H).
  pose proof (request_backoff _ _ _ _ _ _ _ Hreq) as Hb.
  destruct H as [(_ & _ & -> & _)|[(bars & _ & _ & _ & -> & _)|(bars & r0 & df' & -> & Hsv & H)]].
  - by rewrite pages_backoff in H1.
  - by rewrite pages_backoff in H1.
  - assert (Hpg : pages (tr_req ++ page_events c r0 df' (log st)) = [r0 :: df']).
    { by rewrite pages_app, pages_backoff. }
    destruct H as [(_ & _ & -> & _)|(_ & tr_rest & Hrec & ->)].
    + rewrite Hpg in H2. destruct j as [|[|j]]; [lia|done|done].
    + rewrite pages_app, Hpg in H1, H2. destruct j as [|j]; [lia|]. simpl in H2.
      destruct i as [|i]; simpl in H1.
      * injection H1 as <-.
        assert (row_date r2 ≤ new_end_dt r0 df').
        { eapply fetching_rows_below; [exact Hapi|exact Hrec| |exact Hr2].
          by eapply list_elem_of_lookup_2. }
        pose proof (min_date_le r0 df' r1 Hr1).
        unfold new_end_dt, Calendar.minutes in *. lia.
      * eapply (IH _ _ _ _ _ i j); [exact Hrec|lia|done..].
Qed.

Lemma later_pages_are_strictly_earlier_witness :
  row_date (mk_row (Scenario.bar_at (Scenario.now - 240)) None) + 60
  ≤ row_date (mk_row (Scenario.bar_at (Scenario.now - 120)) None).
Proof.
  apply (later_pages_are_strictly_earlier 3 Scenario.api Scenario.MESM6
           (two_years_ago Scenario.now) Scenario_api_window None (mk_mem 0 ∅) DONE
           Scenario.trace (mk_mem 3 Scenario.log2) 0%nat 1%nat
           Scenario.page1 Scenario.page2).
  - vm_compute. reflexivity.
  - lia.
  - reflexivity.
  - reflexivity.
  - left.
  - left.
Defined.

(** ** The page loop ends *)

Lemma fetching_more_fuel fuel api c m start_date :
  forall end_dt st o tr st',
  fetching fuel api c m start_date end_dt st = (o, tr, st') ->
  o ≠ RUNNING ->
  fetching (S fuel) api c m start_date end_dt st = (o, tr, st').
Proof.
  induction fuel as [|fuel IH]; intros end_dt st o tr st' H Ho.
  { by inversion H; subst. }
  rewrite (fetching_round (S fuel)). rewrite fetching_round in H.
  destruct (round api c m start_date end_dt st) as [o1 tr1 st1|tr1 e1 st1]; [done|].
  destruct (fetching fuel api c m start_date (Some e1) st1) as [[o2 tr2] st2] eqn:H2.
  inversion H; subst. by rewrite (IH _ _ _ _ _ H2 Ho).
Qed.

Lemma fetching_fuel_le fuel fuel' api c m start_date end_dt st o tr st' :
  fetching fuel api c m start_date end_dt st = (o, tr, st') ->
  o ≠ RUNNING -> (fuel <= fuel')%nat ->
  fetching fuel' api c m start_date end_dt st = (o, tr, st').
Proof.
  intros H Ho Hle. induction Hle as [|fuel' _ IH]; [done|].
  by apply fetching_more_fuel.
Qed.

Lemma round_continue_below api c start_date t st tr t' st' :
  api_in_window api ->
  round api c 3 start_date (Some t) st = Continue tr t' st' ->
  start_date - 60 < t' /\ t' ≤ t - 60.
Proof.
  intros Hapi. unfold round.
  destruct (request api c (Some t) 3 (calls st)) as [[got tr_req] n] eqn:Hreq.
  destruct got as [bars|]; [|done].
  destruct (survivors start_date (default [] bars)) as [|r df'] eqn:Hsv; [done|].
  destruct (min_date r df' <=? start_date) eqn:Hmin; [done|].
  intros [= _ <- _]. apply Z.leb_gt in Hmin.
  destruct bars as [bars|]; [|done]. simpl in Hsv.
  apply request_returns in Hreq as [k Hk].
  assert (row_date r ≤ t).
  { eapply survivors_in_window; [done..|]. rewrite Hsv. by left. }
  pose proof (min_date_le r df' r ltac:(by left)).
  unfold new_end_dt, Calendar.minutes. lia.
Qed.

Lemma fetching_ends_within fuel api c start_date :
  api_in_window api ->
  forall t st,
  (1 <= fuel)%nat -> t - start_date < 60 * (Z.of_nat fuel - 1) ->
  (fetching fuel api c 3 start_date (Some t) st).1.1 ≠ RUNNING.
Proof.
  intros Hapi. induction fuel as [|fuel IH]; intros t st Hf Ht; [lia|].
  rewrite fetching_round.
  destruct (round api c 3 start_date (Some t) st) as [o tr st'|tr t' st'] eqn:Hr.
  - unfold round in Hr.
    destruct (request _ _ _ _ _) as [[got tr_req] n].
    destruct got as [bars|]; [|by inversion Hr].
    destruct (survivors _ _) as [|r df']; [by inversion Hr|].
    destruct (_ <=? _); by inversion Hr.
  - apply round_continue_below in Hr as [Hlo Hhi]; [|done].
    specialize (IH t' st').
    destruct (fetching fuel api c 3 start_date (Some t') st') as [[o tr'] st''].
    simpl in *. apply IH; lia.
Qed.

(** X7.  With an API that answers within the requested window the page loop
    ends.  From a cursor [t] it ends within [(t - start_date) / 60 + 2]
    rounds, since every page moves the cursor back by at least a minute and
    rows older than [start_date] are not kept; from the unset cursor it ends
    too.  Its outcome is then DONE or FAILED, and stays the same however
    many more rounds are allowed. *)
Theorem page_loop_ends api c start_date :
  api_in_window api ->
  (forall t st fuel,
     (Z.to_nat ((t - start_date) / 60) + 2 <= fuel)%nat ->
     exists o tr st',
       fetching fuel api c 3 start_date (Some t) st = (o, tr, st')
       /\ (o = DONE \/ o = FAILED))
  /\ (forall end_dt st,
        exists fuel o tr st',
          (o = DONE \/ o = FAILED) /\
          forall fuel', (fuel <= fuel')%nat ->
            fetching fuel' api c 3 start_date end_dt st = (o, tr, st')).
Proof.
  intros Hapi.
  assert (Hout : forall fuel end_dt st,
            let o := (fetching fuel api c 3 start_date end_dt st).1.1 in
            o ≠ RUNNING -> o = DONE \/ o = FAILED).
  { intros fuel. induction fuel as [|fuel IH]; intros end_dt st; [done|].
    rewrite fetching_round.
    destruct (round api c 3 start_date end_dt st) as [o tr st'|tr t' st'] eqn:Hr.
    - unfold round in Hr.
      destruct (request _ _ _ _ _) as [[got tr_req] n].
      destruct got as [bars|]; [|inversion Hr; auto].
      destruct (survivors _ _) as [|r df']; [inversion Hr; auto|].
      destruct (_ <=? _); inversion Hr; auto.
    - specialize (IH (Some t') st').
      by destruct (fetching fuel api c 3 start_date (Some t') st') as [[o tr'] st'']. }
  assert (Hsome : forall t st fuel,
            (Z.to_nat ((t - start_date) / 60) + 2 <= fuel)%nat ->
            exists o tr st',
              fetching fuel api c 3 start_date (Some t) st = (o, tr, st')
              /\ (o = DONE \/ o = FAILED)).
  { intros t st fuel Hf.
    assert (Hend : (fetching fuel api c 3 start_date (Some t) st).1.1 ≠ RUNNING).
    { apply fetching_ends_within; [done|lia|].
      destruct (Z.le_gt_cases 0 (t - start_date)) as [Hpos|Hneg]; [|lia].
      pose proof (Z.mod_pos_bound (t - start_date) 60 ltac:(lia)).
      pose proof (Z.div_mod (t - start_date) 60 ltac:(lia)).
      assert (0 ≤ (t - start_date) / 60) by (apply Z.div_pos; lia).
      lia. }
    pose proof (Hout fuel (Some t) st Hend) as Ho.
    destruct (fetching fuel api c 3 start_date (Some t) st) as [[o tr] st'].
    by exists o, tr, st'. }
  split; [exact Hsome|].
  intros [t|] st.
  - destruct (Hsome t st _ (Nat.le_refl _)) as (o & tr & st' & H & Ho).
    exists (Z.to_nat ((t - start_date) / 60) + 2)%nat, o, tr, st'. split; [done|].
    intros fuel' Hle. eapply fetching_fuel_le; [exact H| |exact Hle].
    by destruct Ho as [->| ->].
  - destruct (round api c 3 start_date None st) as [o tr st'|tr t' st'] eqn:Hr.
    + assert (o = DONE \/ o = FAILED) as Ho.
      { unfold round in Hr.
        destruct (request _ _ _ _ _) as [[got tr_req] n].
        destruct got as [bars|]; [|inversion Hr; auto].
        destruct (survivors _ _) as [|r df']; [inversion Hr; auto|].
        destruct (_ <=? _); inversion Hr; auto. }
      exists 1%nat, o, tr, st'. split; [done|].
      intros fuel' Hle. apply (fetching_fuel_le 1); [|by destruct Ho as [->| ->]|done].
      by rewrite fetching_round, Hr.
    + destruct (Hsome t' st' _ (Nat.le_refl _)) as (o & tr' & st'' & H & Ho).
      exists (S (Z.to_nat ((t' - start_date) / 60) + 2)), o, (tr ++ tr'), st''.
      split; [done|]. intros fuel' Hle.
      eapply fetching_fuel_le; [|by destruct Ho as [->| ->]|exact Hle].
      by rewrite fetching_round, Hr, H.
Qed.

Lemma page_loop_ends_witness :
  exists o tr st',
    fetching 3 Scenario.api Scenario.MESM6 3 (two_years_ago Scenario.now)
             (Some (two_years_ago Scenario.now + 60)) (mk_mem 0 ∅) = (o, tr, st')
    /\ (o = DONE \/ o = FAILED).
Proof.
  apply (page_loop_ends Scenario.api Scenario.MESM6 (two_years_ago Scenario.now)).
  - intros n c t bars b [= <-] Hb.
    apply list_elem_of_filter in Hb as [Hb _]. by apply Z.leb_le in Hb.
  - vm_compute. lia.
Defined.

(** ** The pace of the requests *)

Lemma pace_app last tr1 tr2 :
  pace last (tr1 ++ tr2) = pace last tr1 ≫= fun last' => pace last' tr2.
Proof.
  revert last. induction tr1 as [|e tr1 IH]; intros last; [done|].
  destruct e as [t ok|ms|file df|log0]; simpl; try apply IH.
  destruct last as [[ok0 slept]|]; [|apply IH].
  destruct (min_gap_ms ok0 <=? slept); [apply IH|done].
Qed.

Lemma pace_request_ready last t ok tr :
  ready last -> pace last (Request t ok :: tr) = pace (Some (ok, 0)) tr.
Proof.
  destruct last as [[ok0 slept]|]; simpl; [|done].
  intros H. apply Z.leb_le in H. by rewrite H.
Qed.

Lemma pace_request last api c end_dt n got tr n' :
  ready last ->
  request api c end_dt 3 n = (got, tr, n') ->
  pace last tr = Some (Some (match got with Abandon => false | Bars _ => true end, 0)).
Proof.
  intros Hr. rewrite request_three. unfold exhausted.
  destruct (api n c end_dt); [|intros [= <- <- _]; by rewrite pace_request_ready].
  destruct (api (S n) c end_dt); [|intros [= <- <- _]; by rewrite pace_request_ready].
  destruct (api (S (S n)) c end_dt); intros [= <- <- _]; by rewrite pace_request_ready.
Qed.

Lemma fetching_pace fuel api c start_date :
  forall last end_dt st o tr st',
  ready last ->
  fetching fuel api c 3 start_date end_dt st = (o, tr, st') ->
  is_Some (pace last tr).
Proof.
  induction fuel as [|fuel IH]; intros last end_dt st o tr st' Hr H.
  { inversion H; subst. by eexists. }
  apply fetching_inv in H as (got & tr_req & n & Hreq & H).
  pose proof (pace_request last _ _ _ _ _ _ _ Hr Hreq) as Hp.
  destruct H as [(_ & _ & -> & _)|[(bars & _ & _ & _ & -> & _)|(bars & r & df' & -> & Hsv & H)]].
  - rewrite Hp. by eexists.
  - rewrite Hp. by eexists.
  - destruct H as [(_ & _ & -> & _)|(_ & tr_rest & Hrec & ->)].
    + rewrite pace_app, Hp. simpl. by eexists.
    + rewrite <- app_assoc, pace_app, Hp. simpl.
      eapply IH; [|exact Hrec]. simpl. unfold rate_limit_ms. lia.
Qed.

Lemma pace_quiet ok slept q tr :
  requests q = [] ->
  pace (Some (ok, slept)) (q ++ tr)
  = pace (Some (ok, slept + foldr Z.add 0 (sleeps q))) tr.
Proof.
  revert slept. induction q as [|e q IH]; intros slept Hq; simpl.
  - by rewrite Z.add_0_r.
  - destruct e as [t ok'|ms|file df|log0]; simpl in *; try done.
    + rewrite IH by done. do 3 f_equal.
      change (sleeps (Sleep ms :: q)) with (ms :: sleeps q). simpl. lia.
    + by rewrite IH.
    + by rewrite IH.
Qed.

(** X10.  Inside one run of the page loop no request comes straight after
    another: between two consecutive requests the script sleeps at least
    1.1 seconds when the first was answered and at least 1 second when it
    failed. *)
Theorem requests_of_a_run_are_spaced
    fuel api c start_date end_dt st o tr st' p t1 (ok1 : bool) q t2 (ok2 : bool) q' :
  fetching fuel api c 3 start_date end_dt st = (o, tr, st') ->
  tr = p ++ Request t1 ok1 :: q ++ Request t2 ok2 :: q' ->
  requests q = [] ->
  (if ok1 then 1100 else 1000) ≤ foldr Z.add 0 (sleeps q).
Proof.
  intros H -> Hq.
  destruct (fetching_pace _ _ _ _ None _ _ _ _ _ I H) as [final Hp].
  rewrite pace_app in Hp.
  destruct (pace None p) as [last|]; [|done]. simpl in Hp.
  assert (Hq1 : pace (Some (ok1, 0)) (q ++ Request t2 ok2 :: q') = Some final).
  { destruct last as [[ok0 slept]|]; simpl in Hp; [|done].
    by destruct (min_gap_ms ok0 <=? slept). }
  rewrite pace_quiet in Hq1 by done. simpl in Hq1.
  destruct (min_gap_ms ok1 <=? 0 + foldr Z.add 0 (sleeps q)) eqn:Hgap; [|done].
  apply Z.leb_le in Hgap. destruct ok1; unfold min_gap_ms, rate_limit_ms in Hgap; lia.
Qed.

Lemma requests_of_a_run_are_spaced_witness :
  (if true then 1100 else 1000)
  ≤ foldr Z.add 0 (sleeps [ToCsv "MESM6_temp.csv" Scenario.page1; Sleep 1100;
                           JsonDump Scenario.log1]).
Proof.
  apply (requests_of_a_run_are_spaced 3 Scenario.api Scenario.MESM6
           (two_years_ago Scenario.now) None (mk_mem 0 ∅) DONE Scenario.trace
           (mk_mem 3 Scenario.log2) [] None true
           [ToCsv "MESM6_temp.csv" Scenario.page1; Sleep 1100; JsonDump Scenario.log1]
           (Some (Scenario.now - 180)) true (drop 5 Scenario.trace)).
  - vm_compute. reflexivity.
  - reflexivity.
  - reflexivity.
Defined.

(** ** Between two contracts *)

Lemma fetching_first_request fuel api c start_date end_dt st o tr st' :
  fetching (S fuel) api c 3 start_date end_dt st = (o, tr, st') ->
  exists ok tr0, tr = Request end_dt ok :: tr0.
Proof.
  intros H. apply fetching_inv in H as (got & tr_req & n & Hreq & H).
  assert (exists ok tr0, tr_req = Request end_dt ok :: tr0) as (ok & tr0 & ->).
  { rewrite request_three in Hreq.
    destruct (api _ _ _); [|inversion Hreq; eauto].
    destruct (api _ _ _); [|inversion Hreq; eauto].
    destruct (api _ _ _); inversion Hreq; unfold exhausted; eauto. }
  destruct H as [(_ & _ & -> & _)|[(bars & _ & _ & _ & -> & _)|(bars & r & df' & _ & _ & H)]];
    [eauto..|].
  destruct H as [(_ & _ & -> & _)|(_ & tr_rest & _ & ->)]; simpl; eauto.
Qed.

(** X14.  The rate-limit sleep belongs to a page, not to a request.  When the
    API answers the first request for a contract with no bars, that
    contract's run is over after this one request, and the first request for
    the next contract follows it with no sleep in between. *)
Theorem no_sleep_between_contracts
    fuel api clock i c1 c2 rest st end_dt1 end_dt2 :
  init_end_dt (log st) (clock i) c1 = Some end_dt1 ->
  init_end_dt (log st) (clock (S i)) c2 = Some end_dt2 ->
  api (calls st) c1 end_dt1 = Returns [] ->
  exists ok2 tr',
    (fetch_all (S fuel) api clock i (c1 :: c2 :: rest) st).1.2
    = Request end_dt1 true :: Request end_dt2 ok2 :: tr'
    /\ pace None (fetch_all (S fuel) api clock i (c1 :: c2 :: rest) st).1.2 = None.
Proof.
  intros H1 H2 Hapi.
  assert (Hc1 : fetch_contract_data (S fuel) api (clock i) c1 3 st
                = (DONE, [Request end_dt1 true], mk_mem (S (calls st)) (log st))).
  { unfold fetch_contract_data. rewrite H1. cbn [fetching].
    by rewrite request_three, Hapi. }
  cbn [fetch_all]. rewrite Hc1.
  destruct (fetch_contract_data (S fuel) api (clock (S i)) c2 3 _) as [[o2 tr2] st2] eqn:Hc2.
  unfold fetch_contract_data in Hc2. simpl log in Hc2. rewrite H2 in Hc2.
  apply fetching_first_request in Hc2 as (ok2 & tr0 & ->).
  destruct (fetch_all (S fuel) api clock (S (S i)) rest st2) as [[os tr3] st3].
  exists ok2, (tr0 ++ tr3). split; [done|]. reflexivity.
Qed.

Lemma no_sleep_between_contracts_witness :
  exists ok2 tr',
    (fetch_all 1 (fun _ _ _ => Returns []) (fun _ => Scenario.now) 0
       [Scenario.MESM6; Scenario.MESU6] (mk_mem 0 ∅)).1.2
    = Request None true :: Request None ok2 :: tr'
    /\ pace None
         (fetch_all 1 (fun _ _ _ => Returns []) (fun _ => Scenario.now) 0
            [Scenario.MESM6; Scenario.MESU6] (mk_mem 0 ∅)).1.2 = None.
Proof.
  apply (no_sleep_between_contracts 0 (fun _ _ _ => Returns [])
           (fun _ => Scenario.now) 0 Scenario.MESM6 Scenario.MESU6 [] (mk_mem 0 ∅)
           None None).
  - reflexivity.
  - reflexivity.
  - reflexivity.
Defined.

(** ** What the Merger loads and writes *)

Lemma load_contract_rows w c :
  match load_contract w c with
  | Some df => df = set_contract (localSymbol c) (file_rows w c) /\ df ≠ []
  | None => file_rows w c = []
  end.
Proof.
  unfold load_contract, file_rows.
  destruct (csv w !! temp_file c) as [[|r df]|]; simpl; try done.
Qed.

Lemma all_data_cons w c rest :
  all_data w (c :: rest)
  = match load_contract w c with
    | Some df => df :: all_data w rest
    | None => all_data w rest
    end.
Proof. unfold all_data. csimpl. by destruct (load_contract w c). Qed.

Lemma all_data_elem w contracts r :
  r ∈ concat (all_data w contracts) <->
  exists c r0,
    c ∈ contracts /\ r0 ∈ file_rows w c /\ r = mk_row (bar r0) (Some (localSymbol c)).
Proof.
  induction contracts as [|c rest IH].
  - split; [by inversion 1|by intros (c & r0 & Hc & _); inversion Hc].
  - rewrite all_data_cons. pose proof (load_contract_rows w c) as Hl.
    assert (Hhere : r ∈ set_contract (localSymbol c) (file_rows w c) <->
              exists r0, r0 ∈ file_rows w c /\ r = mk_row (bar r0) (Some (localSymbol c))).
    { unfold set_contract. rewrite list_elem_of_fmap. split.
      - intros (r0 & -> & H0). by exists r0.
      - intros (r0 & H0 & ->). by exists r0. }
    destruct (load_contract w c) as [df|].
    + destruct Hl as [-> _]. simpl. rewrite elem_of_app, IH, Hhere. split.
      * intros [(r0 & H0 & ->)|(c' & r0 & Hc' & H0 & ->)].
        -- exists c, r0. split; [by left|done].
        -- exists c', r0. split; [by right|done].
      * intros (c' & r0 & Hc' & H0 & ->).
        apply elem_of_cons in Hc' as [->|Hc']; [left; eauto|right; eauto].
    + rewrite IH. split.
      * intros (c' & r0 & Hc' & H0 & ->). exists c', r0. split; [by right|done].
      * intros (c' & r0 & Hc' & H0 & ->).
        apply elem_of_cons in Hc' as [->|Hc']; [|eauto].
        rewrite Hl in H0. inversion H0.
Qed.

Lemma all_data_nonempty w contracts df : df ∈ all_data w contracts -> df ≠ [].
Proof.
  induction contracts as [|c rest IH]; [by inversion 1|].
  rewrite all_data_cons. pose proof (load_contract_rows w c) as Hl.
  destruct (load_contract w c) as [df0|]; [|done].
  intros [->|H]%elem_of_cons; [by destruct Hl|auto].
Qed.

Lemma all_data_length w contracts :
  length (concat (all_data w contracts))
  = foldr (fun c n => (length (file_rows w c) + n)%nat) 0%nat contracts.
Proof.
  induction contracts as [|c rest IH]; [done|].
  rewrite all_data_cons. pose proof (load_contract_rows w c) as Hl. simpl.
  destruct (load_contract w c) as [df|].
  - destruct Hl as [-> _]. simpl. rewrite length_app, IH.
    unfold set_contract. by rewrite length_fmap.
  - by rewrite Hl, IH.
Qed.

(** X15.  For any list of contracts, the table the Merger produces is in
    ascending order of date and without repeated rows; its rows are exactly
    the rows of the contracts' files, each tagged with the symbol of the
    contract whose file it came from (so every written bar is there once,
    however often the file repeats it); and it is never longer than the
    files together. *)
Theorem merger_holds_each_file_row_once w contracts stamp result :
  (merger w contracts stamp).2 = Some result ->
  StronglySorted date_le result
  /\ NoDup result
  /\ (forall r, r ∈ result <->
        exists c r0,
          c ∈ contracts /\ r0 ∈ file_rows w c /\
          r = mk_row (bar r0) (Some (localSymbol c)))
  /\ (length result
      <= foldr (fun c n => (length (file_rows w c) + n)%nat) 0%nat contracts)%nat.
Proof.
  rewrite merger_result.
  destruct (all_data w contracts) as [|f frames] eqn:Hall; [done|].
  intros [= <-]. rewrite <- Hall.
  destruct (combine_spec (all_data w contracts)) as (Hs & Hn & He & Hp).
  split; [done|]. split; [done|]. split.
  - intros r. by rewrite He, all_data_elem.
  - rewrite Hp, <- all_data_length. apply drop_duplicates_from_length.
Qed.

Lemma merger_holds_each_file_row_once_witness :
  StronglySorted date_le Scenario.combined
  /\ NoDup Scenario.combined
  /\ (forall r, r ∈ Scenario.combined <->
        exists c r0,
          c ∈ [Scenario.MESM6; Scenario.MESU6] /\ r0 ∈ file_rows Scenario.merge_disk c /\
          r = mk_row (bar r0) (Some (localSymbol c)))
  /\ (length Scenario.combined
      <= foldr (fun c n => (length (file_rows Scenario.merge_disk c) + n)%nat) 0%nat
           [Scenario.MESM6; Scenario.MESU6])%nat.
Proof.
  apply (merger_holds_each_file_row_once Scenario.merge_disk
           [Scenario.MESM6; Scenario.MESU6] "20260601_120000" Scenario.combined).
  vm_compute. reflexivity.
Defined.

Lemma combine_nonempty frames :
  frames ≠ [] -> (forall df, df ∈ frames -> df ≠ []) -> combine frames ≠ [].
Proof.
  intros Hne Hall.
  destruct frames as [|[|r df] frames]; [done|exfalso; by apply (Hall []); [left|]|].
  destruct (combine_spec ((r :: df) :: frames)) as (_ & _ & He & _).
  assert (r ∈ combine ((r :: df) :: frames)) as Hr by (apply He; by left).
  intros Heq. rewrite Heq in Hr. inversion Hr.
Qed.

Lemma load_contract_guarded_spec reads_ok w c :
  match load_contract_guarded reads_ok w c with
  | Some df =>
      reads_ok (temp_file c) = true /\
      df = set_contract (localSymbol c) (file_rows w c) /\ df ≠ []
  | None =>
      csv w !! temp_file c = None \/ reads_ok (temp_file c) = false
      \/ csv w !! temp_file c = Some []
  end.
Proof.
  unfold load_contract_guarded, file_rows.
  destruct (csv w !! temp_file c) as [df|]; [|by left].
  destruct (reads_ok (temp_file c)); [|by right; left].
  destruct df as [|r df]; [by right; right|]. simpl. by repeat split.
Qed.

Lemma all_data_guarded_cons reads_ok w c rest :
  all_data_guarded reads_ok w (c :: rest)
  = match load_contract_guarded reads_ok w c with
    | Some df => df :: all_data_guarded reads_ok w rest
    | None => all_data_guarded reads_ok w rest
    end.
Proof.
  unfold all_data_guarded. csimpl.
  by destruct (load_contract_guarded reads_ok w c).
Qed.

Lemma all_data_guarded_nonempty reads_ok w contracts df :
  df ∈ all_data_guarded reads_ok w contracts -> df ≠ [].
Proof.
  induction contracts as [|c rest IH]; [by inversion 1|].
  rewrite all_data_guarded_cons.
  pose proof (load_contract_guarded_spec reads_ok w c) as Hl.
  destruct (load_contract_guarded reads_ok w c) as [df0|]; [|done].
  intros [->|H]%elem_of_cons; [by destruct Hl as (_ & _ & Hl)|auto].
Qed.

Lemma all_data_guarded_all_read reads_ok w contracts :
  (forall f, reads_ok f = true) ->
  all_data_guarded reads_ok w contracts = all_data w contracts.
Proof.
  intros Hr. induction contracts as [|c rest IH]; [done|].
  rewrite all_data_guarded_cons, all_data_cons, IH.
  unfold load_contract_guarded, load_contract.
  rewrite Hr. by destruct (csv w !! temp_file c) as [[|r df]|].
Qed.

(** X16.  The Merger, with the handler of lines 173-182 around [read_csv]:
    it reports "no data" and leaves the disk as it is exactly when the file
    of every contract is missing, cannot be read, or holds no rows.
    Otherwise the table it writes is not empty (the "no data" branch of the
    quality check cannot be taken), it is stored under the output name, and
    nothing else on disk changes.  When every file can be read this Merger
    is [merger]. *)
Theorem merger_writes_one_file_or_nothing reads_ok w contracts stamp :
  (merger_guarded reads_ok w contracts stamp = (w, None) <->
   forall c, c ∈ contracts ->
     csv w !! temp_file c = None \/ reads_ok (temp_file c) = false
     \/ csv w !! temp_file c = Some [])
  /\ (forall result,
        (merger_guarded reads_ok w contracts stamp).2 = Some result ->
        result ≠ []
        /\ csv (merger_guarded reads_ok w contracts stamp).1 !! out_file stamp
           = Some result
        /\ log_json (merger_guarded reads_ok w contracts stamp).1 = log_json w
        /\ forall f, f ≠ out_file stamp ->
             csv (merger_guarded reads_ok w contracts stamp).1 !! f = csv w !! f)
  /\ ((forall f, reads_ok f = true) ->
      merger_guarded reads_ok w contracts stamp = merger w contracts stamp).
Proof.
  assert (Hnone : all_data_guarded reads_ok w contracts = [] <->
                  forall c, c ∈ contracts ->
                    csv w !! temp_file c = None \/ reads_ok (temp_file c) = false
                    \/ csv w !! temp_file c = Some []).
  { induction contracts as [|c rest IH]; [split; [by inversion 2|done]|].
    rewrite all_data_guarded_cons.
    pose proof (load_contract_guarded_spec reads_ok w c) as Hl.
    destruct (load_contract_guarded reads_ok w c) as [df|].
    - split; [done|]. intros H. destruct Hl as (Hr & -> & Hne).
      destruct (H c) as [Hc|[Hc|Hc]]; [by left| | |].
      + unfold file_rows in Hne. by rewrite Hc in Hne.
      + by rewrite Hr in Hc.
      + unfold file_rows in Hne. by rewrite Hc in Hne.
    - rewrite IH. split.
      + intros H c' [->|Hc']%elem_of_cons; auto.
      + intros H c' Hc'. apply H. by right. }
  split; [|split].
  - rewrite <- Hnone. unfold merger_guarded.
    destruct (all_data_guarded reads_ok w contracts) as [|f frames]; [done|].
    by split.
  - intros result. unfold merger_guarded.
    pose proof (all_data_guarded_nonempty reads_ok w contracts) as Hne.
    destruct (all_data_guarded reads_ok w contracts) as [|f frames]; [done|].
    simpl. intros [= <-]. split; [by apply combine_nonempty|].
    split; [by rewrite lookup_insert_eq|]. split; [done|].
    intros f' Hf'. by rewrite lookup_insert_ne.
  - intros Hr. unfold merger_guarded, merger.
    by rewrite all_data_guarded_all_read.
Qed.

Lemma merger_writes_one_file_or_nothing_witness :
  merger_guarded (fun _ => true) Scenario.merge_disk
    [Scenario.MESM6; Scenario.MESU6] "20260601_120000"
  = merger Scenario.merge_disk [Scenario.MESM6; Scenario.MESU6] "20260601_120000".
Proof.
  apply (proj2 (proj2 (merger_writes_one_file_or_nothing (fun _ => true)
                         Scenario.merge_disk [Scenario.MESM6; Scenario.MESU6]
                         "20260601_120000"))).
  reflexivity.
Defined.

(** ** Writing dates and reading them back *)

Example strftime_Ymd_expiry :
  strftime_Ymd (Calendar.mk_date 2026 6 19) = "20260619"%string.
Proof. reflexivity. Qed.

Example strftime_stamp_noon :
  strftime_stamp (mk_datetime (Calendar.mk_date 2026 6 1) 12 0 0)
  = "20260601_120000"%string.
Proof. reflexivity. Qed.

Lemma digit_char_spec d :
  0 ≤ d ≤ 9 ->
  Strptime.is_digit (digit_char d) = true /\ Strptime.digit (digit_char d) = d.
Proof.
  intros Hd.
  assert (Hall : Forall (fun k => Strptime.is_digit (digit_char k) = true
                                  /\ Strptime.digit (digit_char k) = k) (seqZ 0 10)).
  { repeat constructor. }
  rewrite Forall_forall in Hall. apply Hall. apply elem_of_seqZ. lia.
Qed.

Lemma match_Y_pad4 y rest :
  0 ≤ y ≤ 9999 -> Strptime.match_Y (pad4 y ++ rest) = [(y, rest)].
Proof.
  intros Hy. unfold pad4, Strptime.match_Y. cbn [app].
  assert (0 ≤ y / 1000 ≤ 9) as [H1 E1]%digit_char_spec
    by (Z.div_mod_to_equations; lia).
  assert (0 ≤ y / 100 mod 10 ≤ 9) as [H2 E2]%digit_char_spec
    by (Z.div_mod_to_equations; lia).
  assert (0 ≤ y / 10 mod 10 ≤ 9) as [H3 E3]%digit_char_spec
    by (Z.div_mod_to_equations; lia).
  assert (0 ≤ y mod 10 ≤ 9) as [H4 E4]%digit_char_spec
    by (Z.div_mod_to_equations; lia).
  rewrite H1, H2, H3, H4, E1, E2, E3, E4. simpl. do 2 f_equal.
  Z.div_mod_to_equations. lia.
Qed.

Lemma matches_Ymd_head y rest s :
  Strptime.match_Y s = [(y, rest)] ->
  head (Strptime.matches_Ymd s)
  = (fun '(m, d, r) => (y, m, d, r)) <$> first_md rest.
Proof.
  intros HY. unfold Strptime.matches_Ymd, first_md. rewrite HY, bind_singleton.
  assert (Hbind : forall l : list (Z * list ascii),
    (l ≫= fun '(m, r2) => '(d, r3) ← Strptime.match_d r2; [(y, m, d, r3)])
    = (fun '(m, d, r) => (y, m, d, r))
        <$> (l ≫= fun '(m, r2) => '(d, r3) ← Strptime.match_d r2; [(m, d, r3)])).
  { intros l. induction l as [|[m r2] l IH]; [done|].
    rewrite !bind_cons, fmap_app, IH. f_equal.
    generalize (Strptime.match_d r2). intros k.
    induction k as [|[d r3] k IHk]; [done|].
    rewrite !bind_cons, fmap_app, IHk. done. }
  rewrite Hbind. by destruct (Strptime.match_m rest ≫= _).
Qed.

Lemma strptime_Ymd_first y rest s :
  Strptime.match_Y (list_ascii_of_string s) = [(y, rest)] ->
  Strptime.strptime_Ymd s
  = match first_md rest with
    | Some (m, d, []) => Calendar.make_date y m d
    | _ => None
    end.
Proof.
  intros HY. pose proof (matches_Ymd_head y rest _ HY) as Hh.
  unfold Strptime.strptime_Ymd.
  destruct (Strptime.matches_Ymd (list_ascii_of_string s)) as [|[[[y' m'] d'] r'] l];
    destruct (first_md rest) as [[[m d] r]|]; simplify_eq/=; done.
Qed.

(** How month and day texts are matched: every two-digit month followed by
    every two-digit day, a two-digit month alone, and one followed by
    ["01"]. *)
Lemma first_md_table :
  Forall (fun m =>
    Forall (fun d => first_md (pad2 m ++ pad2 d) = Some (m, d, [])) (seqZ 1 31)
    /\ first_md (pad2 m ++ pad2 1) = Some (m, 1, [])
    /\ first_md (pad2 m) = (if m <=? 10 then None else Some (1, m - 10, [])))
    (seqZ 1 12).
Proof. apply (bool_decide_unpack _). vm_compute. exact I. Qed.

Lemma first_md_lookup m :
  1 ≤ m ≤ 12 ->
  (forall d, 1 ≤ d ≤ 31 -> first_md (pad2 m ++ pad2 d) = Some (m, d, []))
  /\ first_md (pad2 m ++ pad2 1) = Some (m, 1, [])
  /\ first_md (pad2 m) = (if m <=? 10 then None else Some (1, m - 10, [])).
Proof.
  intros Hm. pose proof first_md_table as Ht. rewrite Forall_forall in Ht.
  destruct (Ht m) as (Hd & H1 & H0); [apply elem_of_seqZ; lia|].
  split; [|done]. intros d Hd'. rewrite Forall_forall in Hd.
  apply Hd. apply elem_of_seqZ. lia.
Qed.

Lemma days_in_month_bounds y m : 28 ≤ Calendar.days_in_month y m ≤ 31.
Proof.
  unfold Calendar.days_in_month.
  destruct (m =? 2); [destruct (Calendar.is_leap y); lia|].
  destruct ((m =? 4) || (m =? 6) || (m =? 9) || (m =? 11)); lia.
Qed.

Lemma valid_date_bounds y m d :
  Calendar.valid_date y m d = true ->
  1 ≤ y ≤ 9999 /\ 1 ≤ m ≤ 12 /\ 1 ≤ d ≤ Calendar.days_in_month y m.
Proof. unfold Calendar.valid_date. rewrite !andb_true_iff, !Z.leb_le. lia. Qed.

Lemma strptime_strftime_Ymd y m d :
  Calendar.valid_date y m d = true ->
  1000 ≤ y ->
  Strptime.strptime_Ymd (strftime_Ymd (Calendar.mk_date y m d))
  = Some (Calendar.mk_date y m d).
Proof.
  intros Hv Hy.
  destruct (valid_date_bounds _ _ _ Hv) as (Hy' & Hm & Hd).
  pose proof (days_in_month_bounds y m).
  rewrite (strptime_Ymd_first y (pad2 m ++ pad2 d)).
  - destruct (first_md_lookup m Hm) as (Hmd & _ & _).
    rewrite Hmd by lia. unfold Calendar.make_date. by rewrite Hv.
  - unfold strftime_Ymd. rewrite list_ascii_of_string_of_list_ascii. simpl.
    apply match_Y_pad4. lia.
Qed.

Lemma parse_expiry_strftime_Ymd y m d :
  Calendar.valid_date y m d = true ->
  1000 ≤ y ->
  parse_expiry (strftime_Ymd (Calendar.mk_date y m d))
  = Some (Calendar.mk_date y m d).
Proof.
  intros Hv Hy. unfold parse_expiry. by rewrite strptime_strftime_Ymd.
Qed.

(** X2.  A date written as [%Y%m%d] is read back as the same date: for every
    calendar date from the year 1000 on, [parse_expiry] of its eight-digit
    text gives the date again, through the first of the two formats. *)
Theorem full_date_text_reads_back y m d :
  Calendar.valid_date y m d = true ->
  1000 ≤ y ->
  Strptime.strptime_Ymd (strftime_Ymd (Calendar.mk_date y m d))
  = Some (Calendar.mk_date y m d)
  /\ parse_expiry (strftime_Ymd (Calendar.mk_date y m d))
     = Some (Calendar.mk_date y m d).
Proof.
  intros Hv Hy. split.
  - by apply strptime_strftime_Ymd.
  - by apply parse_expiry_strftime_Ymd.
Qed.

Lemma full_date_text_reads_back_witness :
  parse_expiry (strftime_Ymd (Calendar.mk_date 2026 6 19))
  = Some (Calendar.mk_date 2026 6 19).
Proof.
  apply (full_date_text_reads_back 2026 6 19).
  - reflexivity.
  - lia.
Defined.

(** X3.  How [parse_expiry] reads a contract month [YYYYMM], for every year:
    the months 01 to 10 fail the full-date format and are read, with ["01"]
    appended, as the first day of that month; the months 11 and 12 match the
    full-date format as month 1 with day 1 and day 2, and are read as the
    first and second of January of that year. *)
Theorem contract_month_reading y m :
  1 ≤ y ≤ 9999 -> 1 ≤ m ≤ 12 ->
  parse_expiry (contract_month y m)
  = Some (if m <=? 10 then Calendar.mk_date y m 1 else Calendar.mk_date y 1 (m - 10)).
Proof.
  intros Hy Hm. destruct (first_md_lookup m Hm) as (_ & H1 & H0).
  assert (HY : forall rest,
            Strptime.match_Y (list_ascii_of_string (contract_month y m) ++ rest)
            = [(y, pad2 m ++ rest)]).
  { intros rest. unfold contract_month.
    rewrite list_ascii_of_string_of_list_ascii, <- app_assoc.
    apply match_Y_pad4. lia. }
  assert (Hv : forall m' d', 1 ≤ m' ≤ 12 -> 1 ≤ d' ≤ 28 ->
                 Calendar.make_date y m' d' = Some (Calendar.mk_date y m' d')).
  { intros m' d' Hm' Hd'. unfold Calendar.make_date, Calendar.valid_date.
    pose proof (days_in_month_bounds y m').
    replace (1 <=? y) with true by (symmetry; apply Z.leb_le; lia).
    replace (y <=? 9999) with true by (symmetry; apply Z.leb_le; lia).
    replace (1 <=? m') with true by (symmetry; apply Z.leb_le; lia).
    replace (m' <=? 12) with true by (symmetry; apply Z.leb_le; lia).
    replace (1 <=? d') with true by (symmetry; apply Z.leb_le; lia).
    by replace (d' <=? Calendar.days_in_month y m') with true
      by (symmetry; apply Z.leb_le; lia). }
  unfold parse_expiry.
  rewrite (strptime_Ymd_first y (pad2 m))
    by (specialize (HY []); by rewrite !app_nil_r in HY).
  rewrite H0. destruct (m <=? 10) eqn:Hle.
  - rewrite (strptime_Ymd_first y (pad2 m ++ pad2 1))
      by (rewrite chars_app; apply HY).
    rewrite H1. by rewrite Hv by lia.
  - apply Z.leb_gt in Hle. by rewrite Hv by lia.
Qed.

Lemma contract_month_reading_witness :
  parse_expiry (contract_month 2024 12)
  = Some (if 12 <=? 10 then Calendar.mk_date 2024 12 1
          else Calendar.mk_date 2024 1 (12 - 10)).
Proof.
  apply (contract_month_reading 2024 12).
  - lia.
  - lia.
Defined.

(** ** Contracts that parse *)

Lemma fetching_not_unparsed fuel api c m start_date :
  forall end_dt st, (fetching fuel api c m start_date end_dt st).1.1 ≠ UNPARSED.
Proof.
  induction fuel as [|fuel IH]; intros end_dt st; [done|].
  rewrite fetching_round.
  destruct (round api c m start_date end_dt st) as [o tr st'|tr t' st'] eqn:Hr.
  - unfold round in Hr.
    destruct (request _ _ _ _ _) as [[got tr_req] n].
    destruct got as [bars|]; [|by inversion Hr].
    destruct (survivors _ _) as [|r df']; [by inversion Hr|].
    destruct (_ <=? _); by inversion Hr.
  - specialize (IH (Some t') st').
    by destruct (fetching fuel api c m start_date (Some t') st') as [[o tr'] st''].
Qed.

(** X4.  A contract is skipped by [fetch_contract_data], with no request made
    and nothing changed, exactly when its expiry does not parse; a contract
    the Enumerator has kept is never skipped this way, whenever it is
    fetched. *)
Theorem enumerated_contracts_are_fetched now contracts c :
  (forall fuel api now' st,
     parse_expiry (lastTradeDateOrContractMonth c) = None ->
     fetch_contract_data fuel api now' c 3 st = (UNPARSED, [], st))
  /\ (forall fuel api now' st,
        (fetch_contract_data fuel api now' c 3 st).1.1 = UNPARSED ->
        parse_expiry (lastTradeDateOrContractMonth c) = None)
  /\ (c ∈ valid_contracts now contracts ->
      forall fuel api now' st,
        (fetch_contract_data fuel api now' c 3 st).1.1 ≠ UNPARSED).
Proof.
  assert (H2 : forall fuel api now' st,
            (fetch_contract_data fuel api now' c 3 st).1.1 = UNPARSED ->
            parse_expiry (lastTradeDateOrContractMonth c) = None).
  { intros fuel api now' st. unfold fetch_contract_data, init_end_dt.
    destruct (parse_expiry _); [|done].
    intros H. by apply fetching_not_unparsed in H. }
  split; [|split; [done|]].
  - intros fuel api now' st Hp. unfold fetch_contract_data, init_end_dt. by rewrite Hp.
  - intros Hc fuel api now' st Hu. apply H2 in Hu.
    apply valid_contracts_spec in Hc as (_ & d & Hd & _). congruence.
Qed.

Lemma enumerated_contracts_are_fetched_witness :
  fetch_contract_data 3 Scenario.api Scenario.now (mk_contract "MESX" "2026") 3
    (mk_mem 0 ∅)
  = (UNPARSED, [], mk_mem 0 ∅).
Proof.
  apply (enumerated_contracts_are_fetched Scenario.now [] (mk_contract "MESX" "2026")).
  reflexivity.
Defined.

(** ** The names of the files *)

Lemma stamp_digit d : 0 ≤ d ≤ 9 -> stamp_char (digit_char d) = true.
Proof.
  intros Hd. unfold stamp_char. by destruct (digit_char_spec d Hd) as [-> _].
Qed.

Lemma stamp_pad2 n : 0 ≤ n ≤ 99 -> forallb stamp_char (pad2 n) = true.
Proof.
  intros Hn. unfold pad2. simpl.
  rewrite !stamp_digit by (Z.div_mod_to_equations; lia). done.
Qed.

Lemma stamp_pad4 n : 0 ≤ n ≤ 9999 -> forallb stamp_char (pad4 n) = true.
Proof.
  intros Hn. unfold pad4. simpl.
  rewrite !stamp_digit by (Z.div_mod_to_equations; lia). done.
Qed.

Lemma strftime_stamp_is_stamp dt :
  valid_datetime dt = true -> is_stamp (strftime_stamp dt) = true.
Proof.
  unfold valid_datetime. rewrite !andb_true_iff, !Z.leb_le.
  intros ((((((Hv & ?) & ?) & ?) & ?) & ?) & ?).
  apply valid_date_bounds in Hv as (Hy & Hm & Hd).
  pose proof (days_in_month_bounds (Calendar.year (on dt)) (Calendar.month (on dt))).
  unfold is_stamp, strftime_stamp.
  rewrite list_ascii_of_string_of_list_ascii, !forallb_app.
  rewrite stamp_pad4, !stamp_pad2 by lia. done.
Qed.

Lemma append_inj_l s1 s2 suffix : s1 +:+ suffix = s2 +:+ suffix -> s1 = s2.
Proof.
  intros H. apply (f_equal list_ascii_of_string) in H.
  rewrite !chars_app in H. apply app_inv_tail in H.
  apply (f_equal string_of_list_ascii) in H.
  by rewrite !string_of_list_ascii_of_string in H.
Qed.

(** X17.  The files of the script never collide.  Two contracts share a temp
    file exactly when they share a local symbol; the log is none of the CSV
    files; and whenever the Merger runs, the output file it names after the
    time of day is not the temp file of any contract, so that writing the
    combined table leaves every per-contract file as it was. *)
Theorem files_of_the_script_never_collide :
  (forall c1 c2, temp_file c1 = temp_file c2 <-> localSymbol c1 = localSymbol c2)
  /\ (forall c stamp, log_file ≠ temp_file c /\ log_file ≠ out_file stamp)
  /\ (forall dt c,
        valid_datetime dt = true ->
        out_file (strftime_stamp dt) ≠ temp_file c)
  /\ (forall w contracts dt c,
        valid_datetime dt = true ->
        csv (merger w contracts (strftime_stamp dt)).1 !! temp_file c
        = csv w !! temp_file c).
Proof.
  split; [|split; [|split]].
  - intros c1 c2. unfold temp_file. split; [apply append_inj_l|by intros ->].
  - intros c stamp. apply log_file_not_csv.
  - intros dt c Hv. by apply out_file_not_temp, strftime_stamp_is_stamp.
  - intros w contracts dt c Hv.
    by apply merger_keeps_temp_files, strftime_stamp_is_stamp.
Qed.

Lemma files_of_the_script_never_collide_witness :
  out_file (strftime_stamp
              (mk_datetime (Calendar.mk_date 2026 6 1) 12 0 0))
  ≠ temp_file Scenario.MESM6.
Proof.
  apply (proj1 (proj2 (proj2 files_of_the_script_never_collide))).
  reflexivity.
Defined.

(** ** Full-date expiries at the Enumerator *)

(** X1.  For a contract whose expiry is the eight-digit text of a calendar
    date (year 1000 or later), the Enumerator keeps it exactly when the
    instant the code gives that date (its midnight tagged with local mean
    time, 5 h 51 min behind UTC) is not more than 730 days before [now]. *)
Theorem enumerator_keeps_recent_full_dates now contracts c y m d :
  Calendar.valid_date y m d = true ->
  1000 ≤ y ->
  lastTradeDateOrContractMonth c = strftime_Ymd (Calendar.mk_date y m d) ->
  (c ∈ valid_contracts now contracts <->
   c ∈ contracts /\
   now - 730 * 86400
   ≤ 86400 * Calendar.toordinal (Calendar.mk_date y m d) + (5 * 3600 + 51 * 60)).
Proof.
  intros Hv Hy He. rewrite valid_contracts_spec, He.
  rewrite (parse_expiry_strftime_Ymd y m d Hv Hy). split.
  - intros [Hc (d' & [= <-] & Hle)]. by split.
  - intros [Hc Hle]. split; [done|]. by exists (Calendar.mk_date y m d).
Qed.

Lemma enumerator_keeps_recent_full_dates_witness :
  Scenario.MESM6 ∈ valid_contracts Scenario.now [Scenario.MESM6] <->
  Scenario.MESM6 ∈ [Scenario.MESM6] /\
  Scenario.now - 730 * 86400
  ≤ 86400 * Calendar.toordinal (Calendar.mk_date 2026 6 19) + (5 * 3600 + 51 * 60).
Proof.
  apply (enumerator_keeps_recent_full_dates Scenario.now [Scenario.MESM6]
           Scenario.MESM6 2026 6 19).
  - reflexivity.
  - lia.
  - reflexivity.
Defined.

(** ** The first request for a contract without checkpoint *)

(** X5.  For a contract that has no checkpoint yet: if it has expired (the
    code's test: the midnight of the expiry date, tagged with local mean
    time, is an instant before [now]), the first request ends at 23:59:59 of
    the expiry date and, with an API that answers within the window, no
    request of the run ends later than that; otherwise the first request is
    made with the end time unset. *)
Theorem first_request_without_checkpoint
    fuel api now c st expiry_date o tr st' :
  parse_expiry (lastTradeDateOrContractMonth c) = Some expiry_date ->
  log st !! localSymbol c = None ->
  fetch_contract_data (S fuel) api now c 3 st = (o, tr, st') ->
  (Calendar.midnight expiry_date + (5 * 3600 + 51 * 60) < now ->
     (exists ok tr', tr = Request (Some (end_of_day expiry_date)) ok :: tr')
     /\ (api_in_window api ->
         forall e ok, (e, ok) ∈ requests tr ->
           exists t, e = Some t /\ t ≤ end_of_day expiry_date))
  /\ (now ≤ Calendar.midnight expiry_date + (5 * 3600 + 51 * 60) ->
      exists ok tr', tr = Request None ok :: tr').
Proof.
  change (5 * 3600 + 51 * 60) with lmt_offset. fold (expiry_instant expiry_date).
  intros Hp Hl H. unfold fetch_contract_data, init_end_dt in H.
  rewrite Hp, Hl in H. rewrite bool_decide_eq_true_2, andb_true_l in H by done.
  split.
  - intros Hlt. apply Z.ltb_lt in Hlt. rewrite Hlt in H. split.
    + by eapply fetching_first_request.
    + intros Hapi e ok Hin. eapply chain_bound; [|exact Hin].
      by eapply fetching_chain.
  - intros Hge. apply Z.ltb_ge in Hge. rewrite Hge in H.
    by eapply fetching_first_request.
Qed.

Lemma first_request_without_checkpoint_witness :
  exists ok tr', Scenario.trace = Request None ok :: tr'.
Proof.
  apply (first_request_without_checkpoint 2 Scenario.api Scenario.now Scenario.MESM6
           (mk_mem 0 ∅) (Calendar.mk_date 2026 6 19) DONE Scenario.trace
           (mk_mem 3 Scenario.log2)).
  - reflexivity.
  - reflexivity.
  - vm_compute. reflexivity.
  - vm_compute. discriminate.
Defined.

(** ** Resuming a contract *)

Lemma fetching_no_pages fuel api c start_date :
  forall end_dt st o tr st',
  fetching fuel api c 3 start_date end_dt st = (o, tr, st') ->
  pages tr = [] -> log st' = log st.
Proof.
  induction fuel as [|fuel IH]; intros end_dt st o tr st' H Hp.
  { by inversion H; subst. }
  apply fetching_inv in H as (got & tr_req & n & Hreq & H).
  pose proof (request_backoff _ _ _ _ _ _ _ Hreq) as Hb.
  destruct H as [(_ & _ & _ & ->)|[(bars & _ & _ & _ & _ & ->)|(bars & r & df' & -> & Hsv & H)]];
    [done..|].
  assert (Hpg : pages (tr_req ++ page_events c r df' (log st)) = [r :: df']).
  { by rewrite pages_app, pages_backoff. }
  destruct H as [(_ & _ & -> & _)|(_ & tr_rest & _ & ->)].
  - by rewrite Hpg in Hp.
  - by rewrite pages_app, Hpg in Hp.
Qed.

Lemma pages_rows_nonempty fuel api c start_date end_dt st o tr st' df :
  fetching fuel api c 3 start_date end_dt st = (o, tr, st') ->
  df ∈ pages tr -> exists r, r ∈ df.
Proof.
  intros H Hdf. apply pages_elem in Hdf as [file Hin].
  destruct (fetching_to_csv _ _ _ _ _ _ _ _ _ H _ _ Hin) as (_ & _ & _ & _ & _ & _ & Hne).
  destruct df as [|r df]; [done|]. exists r. by left.
Qed.

(** After a run that wrote pages, the cursor left in the log is at least a
    minute earlier than every row the run wrote. *)
Lemma fetching_final_cursor fuel api c start_date :
  api_in_window api ->
  forall end_dt st o tr st' df r,
  fetching fuel api c 3 start_date end_dt st = (o, tr, st') ->
  df ∈ pages tr -> r ∈ df ->
  exists cursor, log st' !! localSymbol c = Some cursor /\ cursor + 60 ≤ row_date r.
Proof.
  intros Hapi. induction fuel as [|fuel IH]; intros end_dt st o tr st' df r H Hdf Hr.
  { inversion H; subst. inversion Hdf. }
  apply fetching_inv in H as (got & tr_req & n & Hreq & H).
  pose proof (request_backoff _ _ _ _ _ _ _ Hreq) as Hb.
  destruct H as [(_ & _ & -> & _)|[(bars & _ & _ & _ & -> & _)|(bars & r0 & df' & -> & Hsv & H)]].
  - rewrite pages_backoff in Hdf by done. inversion Hdf.
  - rewrite pages_backoff in Hdf by done. inversion Hdf.
  - assert (Hpg : pages (tr_req ++ page_events c r0 df' (log st)) = [r0 :: df']).
    { by rewrite pages_app, pages_backoff. }
    assert (Hmin : forall x, x ∈ r0 :: df' -> new_end_dt r0 df' + 60 ≤ row_date x).
    { intros x Hx. apply min_date_le in Hx. unfold new_end_dt, Calendar.minutes. lia. }
    destruct H as [(_ & _ & -> & ->)|(_ & tr_rest & Hrec & ->)].
    + rewrite Hpg in Hdf. apply list_elem_of_singleton in Hdf as ->.
      exists (new_end_dt r0 df'). simpl. rewrite lookup_insert_eq. auto.
    + rewrite pages_app, Hpg in Hdf.
      destruct (pages tr_rest) as [|df2 rest2] eqn:Hrest.
      * rewrite (fetching_no_pages _ _ _ _ _ _ _ _ _ Hrec Hrest). simpl.
        apply list_elem_of_singleton in Hdf as ->.
        exists (new_end_dt r0 df'). rewrite lookup_insert_eq. auto.
      * apply elem_of_cons in Hdf as [->|Hdf]; [|by eapply IH; [exact Hrec|by rewrite Hrest|]].
        assert (Hdf2 : df2 ∈ pages tr_rest) by (rewrite Hrest; by left).
        destruct (pages_rows_nonempty _ _ _ _ _ _ _ _ _ _ Hrec Hdf2) as [r2 Hr2].
        destruct (IH _ _ _ _ _ _ _ Hrec Hdf2 Hr2) as (cursor & Hc & Hle).
        pose proof (fetching_rows_below _ _ _ _ Hapi _ _ _ _ _ Hrec _ _ Hdf2 Hr2).
        exists cursor. split; [done|]. specialize (Hmin r Hr). lia.
Qed.

(** X11.  With an API that answers within the window: if a first run of a
    contract came to the end of its rounds (it returned, or it was stopped
    between two rounds) and a second run of the same contract starts from
    the log the first one left, then every row the second run writes is at
    least a minute earlier than every row the first one wrote.  A first run
    that is left inside a round, after its [to_csv] and before its
    [json.dump], is not covered, and there the second run does write the
    page again: [failed_checkpoint_write_repeats_page] below. *)
Theorem resumed_run_writes_only_earlier_rows
    fuel1 api1 now1 c st0 o1 tr1 st1 fuel2 api2 now2 st1' o2 tr2 st2
    df1 r1 df2 r2 :
  api_in_window api1 -> api_in_window api2 ->
  fetch_contract_data fuel1 api1 now1 c 3 st0 = (o1, tr1, st1) ->
  log st1' = log st1 ->
  fetch_contract_data fuel2 api2 now2 c 3 st1' = (o2, tr2, st2) ->
  df1 ∈ pages tr1 -> r1 ∈ df1 ->
  df2 ∈ pages tr2 -> r2 ∈ df2 ->
  row_date r2 + 60 ≤ row_date r1.
Proof.
  intros Hapi1 Hapi2 H1 Hlog H2 Hdf1 Hr1 Hdf2 Hr2.
  unfold fetch_contract_data in H1, H2.
  destruct (init_end_dt (log st0) now1 c) as [e1|]; [|inversion H1; subst; inversion Hdf1].
  destruct (fetching_final_cursor _ _ _ _ Hapi1 _ _ _ _ _ _ _ H1 Hdf1 Hr1)
    as (cursor & Hc & Hle).
  unfold init_end_dt in H2. rewrite Hlog, Hc in H2. simpl in H2.
  destruct (parse_expiry _); [|inversion H2; subst; inversion Hdf2].
  pose proof (fetching_rows_below _ _ _ _ Hapi2 _ _ _ _ _ H2 _ _ Hdf2 Hr2). lia.
Qed.

Lemma resumed_run_writes_only_earlier_rows_witness :
  row_date (mk_row (Scenario.bar_at (Scenario.now - 240)) None) + 60
  ≤ row_date (mk_row (Scenario.bar_at (Scenario.now - 120)) None).
Proof.
  apply (resumed_run_writes_only_earlier_rows
           1 Scenario.api Scenario.now Scenario.MESM6 (mk_mem 0 ∅)
           RUNNING (take 4 Scenario.trace) (mk_mem 1 Scenario.log1)
           3 Scenario.resumed_api Scenario.now (mk_mem 0 Scenario.log1)
           DONE (drop 4 Scenario.trace) (mk_mem 2 Scenario.log2)
           Scenario.page1 (mk_row (Scenario.bar_at (Scenario.now - 120)) None)
           Scenario.page2 (mk_row (Scenario.bar_at (Scenario.now - 240)) None)).
  - intros n c t bars b [= <-] Hb.
    apply list_elem_of_filter in Hb as [Hb _]. by apply Z.leb_le in Hb.
  - intros n c t bars b [= <-] Hb.
    apply list_elem_of_filter in Hb as [Hb _]. by apply Z.leb_le in Hb.
  - vm_compute. reflexivity.
  - reflexivity.
  - vm_compute. reflexivity.
  - left.
  - left.
  - left.
  - left.
Defined.

(** The first run writes a page and is left by the failing write of the
    checkpoint; the log file is as before, and the next run writes the same
    page once more. *)
Example failed_checkpoint_write_repeats_page :
  let '(e, tr1, _, _) :=
    fetch_contract_data_io 3 Scenario.api (fun k => bool_decide (k = 0%nat))
      Scenario.now Scenario.MESM6 3 (mk_mem 0 ∅) 0 in
  let w := replay Scenario.empty_disk tr1 in
  e = Raised /\ pages tr1 = [Scenario.page1] /\ load_log w = ∅
  /\ pages (fetch_contract_data 1 Scenario.api Scenario.now Scenario.MESM6 3
              (mk_mem 0 (load_log w))).1.2 = [Scenario.page1].
Proof. vm_compute. done. Qed.

(** ** From the API to the combined table *)

Lemma replay_rows_origin tr : forall w f r,
  r ∈ default [] (csv (replay w tr) !! f) ->
  r ∈ default [] (csv w !! f) \/ exists df, ToCsv f df ∈ tr /\ r ∈ df.
Proof.
  induction tr as [|e tr IH]; intros w f r Hr; [by left|].
  simpl in Hr. apply IH in Hr as [Hr|(df & Hin & Hr)].
  - destruct e as [| |file df|]; simpl in Hr; try by left.
    destruct (decide (file = f)) as [->|Hne].
    + rewrite lookup_insert_eq in Hr. simpl in Hr.
      apply elem_of_app in Hr as [Hr|Hr]; [by left|].
      right. exists df. split; [by left|done].
    + rewrite lookup_insert_ne in Hr by done. by left.
  - right. exists df. split; [by right|done].
Qed.

Lemma fetch_all_origin fuel api clock contracts :
  forall i st os tr st' file df,
  fetch_all fuel api clock i contracts st = (os, tr, st') ->
  ToCsv file df ∈ tr ->
  exists c j n end_dt bars,
    contracts !! j = Some c /\ file = temp_file c /\
    api n c end_dt = Returns bars /\
    df = survivors (two_years_ago (clock (i + j)%nat)) bars.
Proof.
  induction contracts as [|c rest IH]; intros i st os tr st' file df H Hin.
  { inversion H; subst. inversion Hin. }
  cbn [fetch_all] in H.
  destruct (fetch_contract_data fuel api (clock i) c 3 st) as [[o1 tr1] st1] eqn:H1.
  destruct (fetch_all fuel api clock (S i) rest st1) as [[os2 tr2] st2] eqn:H2.
  inversion H; subst. apply elem_of_app in Hin as [Hin|Hin].
  - destruct (fetch_contract_data_to_csv _ _ _ _ _ _ _ _ _ _ H1 Hin)
      as (-> & n & e & bars & Hapi & -> & _).
    exists c, 0%nat, n, e, bars. by rewrite Nat.add_0_r.
  - destruct (IH _ _ _ _ _ _ _ H2 Hin) as (c' & j & n & e & bars & Hc' & Hrest).
    exists c', (S j), n, e, bars. split; [done|].
    by rewrite Nat.add_succ_r.
Qed.

(** X18.  Fetch the contracts, then merge.  Every row of the combined table
    is tagged with the symbol of one of the contracts and is either a row
    that was in that contract's file before the fetch, or a bar the API
    returned for the contract at some position [j] of the list, of that
    symbol, which was not older than two years on the clock read when that
    very contract was fetched, [clock (i + j)]. *)
Theorem combined_rows_come_from_the_api
    fuel api clock i contracts st os tr st' w stamp result r :
  fetch_all fuel api clock i contracts st = (os, tr, st') ->
  (merger (replay w tr) contracts stamp).2 = Some result ->
  r ∈ result ->
  exists c,
    c ∈ contracts /\ contract r = Some (localSymbol c) /\
    ((exists r0, r0 ∈ file_rows w c /\ bar r = bar r0)
     \/ (exists j n end_dt bars,
           contracts !! j = Some c /\
           api n c end_dt = Returns bars /\ bar r ∈ bars /\
           clock (i + j)%nat - 730 * 86400 ≤ row_date r)).
Proof.
  intros Hf Hm Hr.
  assert (Hin : r ∈ concat (all_data (replay w tr) contracts)).
  { rewrite merger_result in Hm.
    destruct (all_data (replay w tr) contracts) as [|f frames] eqn:Hall; [done|].
    injection Hm as <-. by apply combine_spec. }
  apply all_data_elem in Hin as (c' & r0 & Hc' & Hr0 & ->).
  apply replay_rows_origin in Hr0 as [Hr0|(df & Hcsv & Hr0)].
  - exists c'. split; [done|]. split; [done|]. left. by exists r0.
  - destruct (fetch_all_origin _ _ _ _ _ _ _ _ _ _ _ Hf Hcsv)
      as (c & j & n & e & bars & Hc & Hfile & Hapi & ->).
    apply append_inj_l in Hfile.
    exists c. split; [by eapply list_elem_of_lookup_2|].
    split; [by simpl; rewrite Hfile|].
    right. exists j, n, e, bars. split; [done|]. split; [done|].
    apply list_elem_of_filter in Hr0 as [Hd Hr0].
    apply list_elem_of_fmap in Hr0 as (b & -> & Hb). by split.
Qed.

Lemma combined_rows_come_from_the_api_witness :
  exists c,
    c ∈ [Scenario.MESM6] /\
    contract (Scenario.tagged "MESM6" (Scenario.now - 240))
    = Some (localSymbol c) /\
    ((exists r0, r0 ∈ file_rows Scenario.empty_disk c
                 /\ bar (Scenario.tagged "MESM6" (Scenario.now - 240)) = bar r0)
     \/ (exists j n end_dt bars,
           [Scenario.MESM6] !! j = Some c
           /\ Scenario.api n c end_dt = Returns bars
           /\ bar (Scenario.tagged "MESM6" (Scenario.now - 240)) ∈ bars
           /\ (fun _ : nat => Scenario.now) (0 + j)%nat - 730 * 86400
              ≤ row_date (Scenario.tagged "MESM6" (Scenario.now - 240)))).
Proof.
  apply (combined_rows_come_from_the_api 3 Scenario.api (fun _ => Scenario.now) 0
           [Scenario.MESM6] (mk_mem 0 ∅) [("MESM6", DONE)] Scenario.trace
           (mk_mem 3 Scenario.log2) Scenario.empty_disk "20260601_120000"
           [Scenario.tagged "MESM6" (Scenario.now - 240);
            Scenario.tagged "MESM6" (Scenario.now - 120);
            Scenario.tagged "MESM6" (Scenario.now - 60)]).
  - vm_compute. reflexivity.
  - vm_compute. reflexivity.
  - left.
Defined.

